(** * Deterministic models of Ehlers and Bataillon (2007): Model 1 and Model 2

    Shallow embedding of the generation recurrence of
    [src/deterministic_model1.c] (6 genotypes, one locus with alleles
    A, a, a* ; "Model A") and [src/deterministic_model2.c] (9 genotypes,
    two loci; "Model B"), together with the equilibrium classifier and the
    K/k reparameterisation of the parameter sweep.

    The C program computes with [float]; the embedding computes with exact
    rationals [Q].  Every division of one generation goes through the
    checked operation [divq], which fails (returns [None]) on a zero
    divisor, so that "no division by zero" is a property of the result. *)

From Stdlib Require Import QArith Qfield Lqa Bool List Arith ZArith Lia.
From Stdlib Require String Ascii.
Import ListNotations.
Import (notations) String Ascii.

Open Scope Q_scope.

(** ** Shared machinery *)

(** Results of a generation: [None] records a division by zero. *)
Definition M (A : Type) : Type := option A.

Definition ret {A} (x : A) : M A := Some x.

Definition bind {A B} (m : M A) (k : A -> M B) : M B :=
  match m with Some x => k x | None => None end.

Notation "'let*' x := m 'in' k" := (bind m (fun x => k))
  (at level 200, x name, m at level 100, k at level 200).

(** Checked division [a / b]. *)
Definition divq (a b : Q) : M Q :=
  if Qeq_bool b 0 then None else Some (a / b).

(** The C comparison [x > y]. *)
Definition Qgtb (x y : Q) : bool := negb (Qle_bool x y).

(** The global parameters of both programs.  [Sr] is [S] and [Qp] is [Q]
    of the C source (both names are taken in Rocq). *)
Record params := mkParams {
  h : Q;      (* probability that an inconstant is a cosex *)
  Sr : Q;     (* selfing rate S *)
  d : Q;      (* inbreeding depression *)
  V : Q;      (* viability of YY individuals *)
  Qp : Q;     (* cosex pollen production Q *)
  F : Q;      (* cosex ovule production F *)
  PSatF : Q;  (* pollen saturation point for female receivers *)
  ppY : Q     (* viability of Y pollen (Model 1 only) *)
}.

(** Egg contribution of one receiving genotype under pollen limitation:
    [if (totalpollen >= thr) e += x; else e += x * totalpollen / thr;] *)
Definition limited (totalpollen thr x : Q) : M Q :=
  if Qle_bool thr totalpollen then ret x else divq (x * totalpollen) thr.

(** ** Equilibrium classifier (identical in both files) *)

Inductive category := NONE | PGD | SSD | DIO | PAD | INC.

Definition classify (threshold female male inconstant : Q) : category :=
  if Qgtb male threshold && Qgtb female threshold && Qgtb inconstant threshold
  then SSD
  else if Qgtb male threshold && Qgtb female threshold then DIO
  else if Qgtb female threshold && Qgtb inconstant threshold then PGD
  else if Qgtb male threshold && Qgtb inconstant threshold then PAD
  else if Qgtb inconstant threshold then INC
  else NONE.

(** The classification rule as the spec words it: a class is present when
    its aggregate strictly exceeds the threshold, and the result is the
    first category of the priority list SSD, DIO, PGD, PAD, INC whose
    condition holds, or none. *)
Definition present (threshold x : Q) : bool :=
  if Qlt_le_dec threshold x then true else false.

Definition rule (threshold female male inconstant : Q) (c : category) : bool :=
  match c with
  | SSD => present threshold female && present threshold male
           && present threshold inconstant
  | DIO => present threshold female && present threshold male
  | PGD => present threshold female && present threshold inconstant
  | PAD => present threshold male && present threshold inconstant
  | INC => present threshold inconstant
  | NONE => true
  end.

Definition priority : list category := SSD :: DIO :: PGD :: PAD :: INC :: nil.

Fixpoint first_match (threshold female male inconstant : Q)
    (l : list category) : category :=
  match l with
  | nil => NONE
  | c :: l' =>
      if rule threshold female male inconstant c then c
      else first_match threshold female male inconstant l'
  end.

Definition classify_spec (threshold female male inconstant : Q) : category :=
  first_match threshold female male inconstant priority.

(** Results compared by value: both runs fail, or both succeed with
    values related by [R]. *)
Definition opt_rel {A} (R : A -> A -> Prop) (m m' : M A) : Prop :=
  match m, m' with
  | Some x, Some x' => R x x'
  | None, None => True
  | _, _ => False
  end.

(** Two parameter settings with the same numeric values. *)
Definition eqv_params (p p' : params) : Prop :=
  h p == h p' /\ Sr p == Sr p' /\ d p == d p' /\ V p == V p' /\
  Qp p == Qp p' /\ F p == F p' /\ PSatF p == PSatF p' /\ ppY p == ppY p'.

(** ** Parameter sweep: the K/k ("oldformat") axes *)

(** [Q = 1 / (1 + K); F = 1 / (1 + k);] *)
Definition Q_of_K (K : Q) : Q := 1 / (1 + K).

(** [(1 / Q) - 1], as printed for K and k in single-run mode. *)
Definition K_of_Q (q : Q) : Q := (1 / q) - 1.

(** ** Model 1: genotypes AA, Aa, Aa*, aa, aa*, a*a* *)
Module ModelA.

Record gen := mkGen {
  f_AA : Q; f_Aa : Q; f_Aas : Q; f_aa : Q; f_aas : Q; f_asas : Q
}.

(** Gamete pools over the alleles A, a, a*. *)
Record alleles := mkAl { g_A : Q; g_a : Q; g_as : Q }.

Definition total (v : gen) : Q :=
  f_AA v + f_Aa v + f_Aas v + f_aa v + f_aas v + f_asas v.

(** Outcrossed pollen, summed source by source, before the ppY penalty. *)
Definition pollen_sum (p : params) (v : gen) : alleles :=
  let p_A := 0
    + f_Aa v * (1#2)
    + f_Aas v * (1#2) * h p * Qp p
    + f_Aas v * (1#2) * (1 - h p) in
  let p_a := 0
    + f_Aa v * (1#2)
    + f_aa v
    + f_aas v * (1#2) * h p * Qp p
    + f_aas v * (1#2) * (1 - h p) in
  let p_as := 0
    + f_Aas v * (1#2) * h p * Qp p
    + f_Aas v * (1#2) * (1 - h p)
    + f_aas v * (1#2) * h p * Qp p
    + f_aas v * (1#2) * (1 - h p)
    + f_asas v * h p * Qp p
    + f_asas v * (1 - h p) in
  mkAl p_A p_a p_as.

(** Y pollen viability penalty: [p_a *= ppY; p_as *= ppY;] *)
Definition pollen_raw (p : params) (v : gen) : alleles :=
  let s := pollen_sum p v in
  mkAl (g_A s) (g_a s * ppY p) (g_as s * ppY p).

Definition totalpollen (p : params) (v : gen) : Q :=
  let r := pollen_raw p v in g_A r + g_a r + g_as r.

(** Normalised pollen pool, returned with [totalpollen]. *)
Definition pollen (p : params) (v : gen) : M (alleles * Q) :=
  let r := pollen_raw p v in
  let tp := g_A r + g_a r + g_as r in
  if Qgtb tp 0 then
    let* x := divq (g_A r) tp in
    let* y := divq (g_a r) tp in
    let* z := divq (g_as r) tp in
    ret (mkAl x y z, tp)
  else ret (r, tp).

(** Outcrossed eggs (not normalised). *)
Definition eggs (p : params) (v : gen) (tp : Q) : M alleles :=
  let PSatC := PSatF p * F p * (1 - Sr p) in
  let* e1 := limited tp (PSatF p) (f_AA v) in
  let* e2 := limited tp PSatC (f_Aas v * h p * (1#2) * (1 - Sr p) * F p) in
  let* e3 := limited tp PSatC (f_Aas v * h p * (1#2) * (1 - Sr p) * F p) in
  let* e4 := limited tp PSatC (f_aas v * h p * (1#2) * (1 - Sr p) * F p) in
  let* e5 := limited tp PSatC (f_aas v * h p * (1#2) * (1 - Sr p) * F p) in
  let* e6 := limited tp PSatC (f_asas v * h p * (1 - Sr p) * F p) in
  ret (mkAl (0 + e1 + e2) (0 + e4) (0 + e3 + e5 + e6)).

(** Plant frequencies from outcrossing. *)
Definition outcross (pp e : alleles) : gen :=
  mkGen (g_A pp * g_A e)
        (g_A pp * g_a e + g_a pp * g_A e)
        (g_A pp * g_as e + g_as pp * g_A e)
        (g_a pp * g_a e)
        (g_a pp * g_as e + g_as pp * g_a e)
        (g_as pp * g_as e).

(** Additional plants from selfing, per offspring genotype. *)
Definition selfed (p : params) (v : gen) : M gen :=
  let* c1 := divq (1#2) (1 + ppY p) in
  let* c2 := divq ((1#2) * ppY p) (1 + ppY p) in
  ret (mkGen
    (0 + f_Aas v * c1 * Sr p * (1 - d p) * h p * F p)
    0
    (0 + f_Aas v * (1#2) * Sr p * (1 - d p) * h p * F p)
    (0 + f_aas v * (1#4) * Sr p * (1 - d p) * h p * F p)
    (0 + f_aas v * (1#2) * Sr p * (1 - d p) * h p * F p)
    (0 + f_Aas v * c2 * Sr p * (1 - d p) * h p * F p
       + f_aas v * (1#4) * Sr p * (1 - d p) * h p * F p
       + f_asas v * Sr p * (1 - d p) * h p * F p)).

Definition add (x y : gen) : gen :=
  mkGen (f_AA x + f_AA y) (f_Aa x + f_Aa y) (f_Aas x + f_Aas y)
        (f_aa x + f_aa y) (f_aas x + f_aas y) (f_asas x + f_asas y).

(** YY penalty: [next_f_aa *= V; next_f_aas *= V; next_f_asas *= V;] *)
Definition penalty (p : params) (x : gen) : gen :=
  mkGen (f_AA x) (f_Aa x) (f_Aas x)
        (f_aa x * V p) (f_aas x * V p) (f_asas x * V p).

(** Next generation before the final normalisation. *)
Definition step_raw (p : params) (v : gen) : M gen :=
  let* pt := pollen p v in
  let* e := eggs p v (snd pt) in
  let* s := selfed p v in
  ret (penalty p (add (outcross (fst pt) e) s)).

(** Normalise plant frequencies to add up to 1 (skipped if the sum is 0). *)
Definition normalise (x : gen) : M gen :=
  let totalplants := total x in
  if Qgtb totalplants 0 then
    let* a := divq (f_AA x) totalplants in
    let* b := divq (f_Aa x) totalplants in
    let* c := divq (f_Aas x) totalplants in
    let* e := divq (f_aa x) totalplants in
    let* g := divq (f_aas x) totalplants in
    let* i := divq (f_asas x) totalplants in
    ret (mkGen a b c e g i)
  else ret x.

(** One iteration of the [for (n = 0; n < endpoint; n++)] loop. *)
Definition step (p : params) (v : gen) : M gen :=
  let* x := step_raw p v in normalise x.

Definition init (pgd : bool) : gen :=
  if pgd then mkGen (499#1000) (2#1000) (499#1000) 0 0 0
  else mkGen (499#1000) (499#1000) (2#1000) 0 0 0.

Fixpoint iterate (p : params) (n : nat) (v : gen) : M gen :=
  match n with
  | O => ret v
  | S n' => let* w := step p v in iterate p n' w
  end.

Definition simulate (p : params) (endpoint : nat) (pgd : bool) : M gen :=
  iterate p endpoint (init pgd).

(** [female = f_AA; male = f_Aa + f_aa; inconstant = f_Aas + f_aas + f_asas;] *)
Definition female (v : gen) : Q := f_AA v.
Definition male (v : gen) : Q := f_Aa v + f_aa v.
Definition inconstant (v : gen) : Q := f_Aas v + f_aas v + f_asas v.

Definition result (threshold : Q) (v : gen) : category :=
  classify threshold (female v) (male v) (inconstant v).

(** Predicates used by the proofs. *)
Definition nonneg (v : gen) : Prop :=
  0 <= f_AA v /\ 0 <= f_Aa v /\ 0 <= f_Aas v /\
  0 <= f_aa v /\ 0 <= f_aas v /\ 0 <= f_asas v.

Definition zero (v : gen) : Prop :=
  f_AA v == 0 /\ f_Aa v == 0 /\ f_Aas v == 0 /\
  f_aa v == 0 /\ f_aas v == 0 /\ f_asas v == 0.

Definition nonneg_al (x : alleles) : Prop :=
  0 <= g_A x /\ 0 <= g_a x /\ 0 <= g_as x.

Definition zero_al (x : alleles) : Prop :=
  g_A x == 0 /\ g_a x == 0 /\ g_as x == 0.

Definition zero_gen : gen := mkGen 0 0 0 0 0 0.

Definition eqv (v w : gen) : Prop :=
  f_AA v == f_AA w /\ f_Aa v == f_Aa w /\ f_Aas v == f_Aas w /\
  f_aa v == f_aa w /\ f_aas v == f_aas w /\ f_asas v == f_asas w.

Definition eqv_al (x y : alleles) : Prop :=
  g_A x == g_A y /\ g_a x == g_a y /\ g_as x == g_as y.

(** The six genotypes, numbered 1 to 6 in the source comments. *)
Inductive genotype := AA | Aa | Aas | aa | aas | asas.

(** Genotypes 3, 5 and 6 (carrying a* ) are inconstants and can act as
    cosexes; only they self. *)
Definition cosex (g : genotype) : bool :=
  match g with Aas | aas | asas => true | _ => false end.

(** A population holding only genotype [g], at frequency [x]. *)
Definition single (g : genotype) (x : Q) : gen :=
  match g with
  | AA => mkGen x 0 0 0 0 0
  | Aa => mkGen 0 x 0 0 0 0
  | Aas => mkGen 0 0 x 0 0 0
  | aa => mkGen 0 0 0 x 0 0
  | aas => mkGen 0 0 0 0 x 0
  | asas => mkGen 0 0 0 0 0 x
  end.

End ModelA.


(** ** Model 2: sex locus {AA, Aa, aa} times modifier locus {MM, Mm, mm} *)
Module ModelB.

Record gen := mkGen {
  f_AA_MM : Q; f_AA_Mm : Q; f_AA_mm : Q;
  f_Aa_MM : Q; f_Aa_Mm : Q; f_Aa_mm : Q;
  f_aa_MM : Q; f_aa_Mm : Q; f_aa_mm : Q
}.

(** Gamete pools over the haplotypes AM, Am, aM, am. *)
Record gametes := mkGam { g_A_M : Q; g_A_m : Q; g_a_M : Q; g_a_m : Q }.

Definition total (v : gen) : Q :=
  f_AA_MM v + f_AA_Mm v + f_AA_mm v + f_Aa_MM v + f_Aa_Mm v + f_Aa_mm v
  + f_aa_MM v + f_aa_Mm v + f_aa_mm v.

(** Outcrossed pollen, summed source by source. *)
Definition pollen_raw (p : params) (v : gen) : gametes :=
  let p_A_M := 0
    + f_Aa_MM v * (1#2) * h p * Qp p
    + f_Aa_MM v * (1#2) * (1 - h p)
    + f_Aa_Mm v * (1#4) * h p * Qp p
    + f_Aa_Mm v * (1#4) * (1 - h p) in
  let p_A_m := 0
    + f_Aa_Mm v * (1#4) * h p * Qp p
    + f_Aa_Mm v * (1#4) * (1 - h p)
    + f_Aa_mm v * (1#2) in
  let p_a_M := 0
    + f_Aa_MM v * (1#2) * h p * Qp p
    + f_Aa_MM v * (1#2) * (1 - h p)
    + f_Aa_Mm v * (1#4) * h p * Qp p
    + f_Aa_Mm v * (1#4) * (1 - h p)
    + f_aa_MM v * h p * Qp p
    + f_aa_MM v * (1 - h p)
    + f_aa_Mm v * (1#2) * h p * Qp p
    + f_aa_Mm v * (1#2) * (1 - h p) in
  let p_a_m := 0
    + f_Aa_Mm v * (1#4) * h p * Qp p
    + f_Aa_Mm v * (1#4) * (1 - h p)
    + f_Aa_mm v * (1#2)
    + f_aa_Mm v * (1#2) * h p * Qp p
    + f_aa_Mm v * (1#2) * (1 - h p)
    + f_aa_mm v in
  mkGam p_A_M p_A_m p_a_M p_a_m.

Definition totalpollen (p : params) (v : gen) : Q :=
  let r := pollen_raw p v in g_A_M r + g_A_m r + g_a_M r + g_a_m r.

(** Normalised pollen pool, returned with [totalpollen]. *)
Definition pollen (p : params) (v : gen) : M (gametes * Q) :=
  let r := pollen_raw p v in
  let tp := g_A_M r + g_A_m r + g_a_M r + g_a_m r in
  if Qgtb tp 0 then
    let* w := divq (g_A_M r) tp in
    let* x := divq (g_A_m r) tp in
    let* y := divq (g_a_M r) tp in
    let* z := divq (g_a_m r) tp in
    ret (mkGam w x y z, tp)
  else ret (r, tp).

(** Outcrossed eggs (not normalised). *)
Definition eggs (p : params) (v : gen) (tp : Q) : M gametes :=
  let PSatC := PSatF p * F p * (1 - Sr p) in
  (* pure females, genotypes 1 to 3 *)
  let* e1 := limited tp (PSatF p) (f_AA_MM v) in
  let* e2 := limited tp (PSatF p) (f_AA_Mm v * (1#2)) in
  let* e3 := limited tp (PSatF p) (f_AA_Mm v * (1#2)) in
  let* e4 := limited tp (PSatF p) (f_AA_mm v) in
  (* Aa MM inconstants as cosexes (genotype 4) *)
  let* e5 := limited tp PSatC (f_Aa_MM v * h p * (1#2) * (1 - Sr p) * F p) in
  let* e6 := limited tp PSatC (f_Aa_MM v * h p * (1#2) * (1 - Sr p) * F p) in
  (* Aa Mm inconstants as cosexes (genotype 5) *)
  let* e7 := limited tp PSatC (f_Aa_Mm v * h p * (1#4) * (1 - Sr p) * F p) in
  let* e8 := limited tp PSatC (f_Aa_Mm v * h p * (1#4) * (1 - Sr p) * F p) in
  let* e9 := limited tp PSatC (f_Aa_Mm v * h p * (1#4) * (1 - Sr p) * F p) in
  let* e10 := limited tp PSatC (f_Aa_Mm v * h p * (1#4) * (1 - Sr p) * F p) in
  (* aa MM inconstants as cosexes (genotype 7) *)
  let* e11 := limited tp PSatC (f_aa_MM v * h p * (1 - Sr p) * F p) in
  (* aa Mm inconstants as cosexes (genotype 8) *)
  let* e12 := limited tp PSatC (f_aa_Mm v * h p * (1#2) * (1 - Sr p) * F p) in
  let* e13 := limited tp PSatC (f_aa_Mm v * h p * (1#2) * (1 - Sr p) * F p) in
  ret (mkGam (0 + e1 + e2 + e5 + e7)
             (0 + e3 + e4 + e8)
             (0 + e6 + e9 + e11 + e12)
             (0 + e10 + e13)).

(** Plant frequencies from outcrossing. *)
Definition outcross (pp e : gametes) : gen :=
  mkGen (g_A_M pp * g_A_M e)
        (g_A_M pp * g_A_m e + g_A_m pp * g_A_M e)
        (g_A_m pp * g_A_m e)
        (g_A_M pp * g_a_M e + g_a_M pp * g_A_M e)
        (g_A_M pp * g_a_m e + g_A_m pp * g_a_M e + g_a_M pp * g_A_m e
           + g_a_m pp * g_A_M e)
        (g_A_m pp * g_a_m e + g_a_m pp * g_A_m e)
        (g_a_M pp * g_a_M e)
        (g_a_M pp * g_a_m e + g_a_m pp * g_a_M e)
        (g_a_m pp * g_a_m e).

(** Additional plants from selfing (genotypes 4, 5, 7 and 8 self). *)
Definition selfed (p : params) (v : gen) : gen :=
  let k := Sr p * (1 - d p) * h p * F p in
  mkGen
    (0 + f_Aa_MM v * (1#4) * k + f_Aa_Mm v * (1#16) * k)
    (0 + f_Aa_Mm v * (1#8) * k)
    (0 + f_Aa_Mm v * (1#16) * k)
    (0 + f_Aa_MM v * (1#2) * k + f_Aa_Mm v * (1#8) * k)
    (0 + f_Aa_Mm v * (1#4) * k)
    (0 + f_Aa_Mm v * (1#8) * k)
    (0 + f_Aa_MM v * (1#4) * k + f_Aa_Mm v * (1#16) * k + f_aa_MM v * k
       + f_aa_Mm v * (1#4) * k)
    (0 + f_Aa_Mm v * (1#8) * k + f_aa_Mm v * (1#2) * k)
    (0 + f_Aa_Mm v * (1#16) * k + f_aa_Mm v * (1#4) * k).

Definition add (x y : gen) : gen :=
  mkGen (f_AA_MM x + f_AA_MM y) (f_AA_Mm x + f_AA_Mm y) (f_AA_mm x + f_AA_mm y)
        (f_Aa_MM x + f_Aa_MM y) (f_Aa_Mm x + f_Aa_Mm y) (f_Aa_mm x + f_Aa_mm y)
        (f_aa_MM x + f_aa_MM y) (f_aa_Mm x + f_aa_Mm y) (f_aa_mm x + f_aa_mm y).

(** YY penalty on aa MM, aa Mm and aa mm. *)
Definition penalty (p : params) (x : gen) : gen :=
  mkGen (f_AA_MM x) (f_AA_Mm x) (f_AA_mm x)
        (f_Aa_MM x) (f_Aa_Mm x) (f_Aa_mm x)
        (f_aa_MM x * V p) (f_aa_Mm x * V p) (f_aa_mm x * V p).

Definition step_raw (p : params) (v : gen) : M gen :=
  let* pt := pollen p v in
  let* e := eggs p v (snd pt) in
  ret (penalty p (add (outcross (fst pt) e) (selfed p v))).

Definition normalise (x : gen) : M gen :=
  let totalplants := total x in
  if Qgtb totalplants 0 then
    let* a1 := divq (f_AA_MM x) totalplants in
    let* a2 := divq (f_AA_Mm x) totalplants in
    let* a3 := divq (f_AA_mm x) totalplants in
    let* a4 := divq (f_Aa_MM x) totalplants in
    let* a5 := divq (f_Aa_Mm x) totalplants in
    let* a6 := divq (f_Aa_mm x) totalplants in
    let* a7 := divq (f_aa_MM x) totalplants in
    let* a8 := divq (f_aa_Mm x) totalplants in
    let* a9 := divq (f_aa_mm x) totalplants in
    ret (mkGen a1 a2 a3 a4 a5 a6 a7 a8 a9)
  else ret x.

Definition step (p : params) (v : gen) : M gen :=
  let* x := step_raw p v in normalise x.

Definition init (pgd : bool) : gen :=
  if pgd then mkGen (499#1000) 0 0 (499#1000) 0 (2#1000) 0 0 0
  else mkGen 0 0 (499#1000) 0 (2#1000) (499#1000) 0 0 0.

Fixpoint iterate (p : params) (n : nat) (v : gen) : M gen :=
  match n with
  | O => ret v
  | S n' => let* w := step p v in iterate p n' w
  end.

Definition simulate (p : params) (endpoint : nat) (pgd : bool) : M gen :=
  iterate p endpoint (init pgd).

Definition female (v : gen) : Q := f_AA_MM v + f_AA_Mm v + f_AA_mm v.
Definition male (v : gen) : Q := f_Aa_mm v + f_aa_mm v.
Definition inconstant (v : gen) : Q :=
  f_Aa_MM v + f_Aa_Mm v + f_aa_MM v + f_aa_Mm v.

Definition result (threshold : Q) (v : gen) : category :=
  classify threshold (female v) (male v) (inconstant v).

(** Predicates used by the proofs. *)
Definition nonneg (v : gen) : Prop :=
  0 <= f_AA_MM v /\ 0 <= f_AA_Mm v /\ 0 <= f_AA_mm v /\
  0 <= f_Aa_MM v /\ 0 <= f_Aa_Mm v /\ 0 <= f_Aa_mm v /\
  0 <= f_aa_MM v /\ 0 <= f_aa_Mm v /\ 0 <= f_aa_mm v.

Definition zero (v : gen) : Prop :=
  f_AA_MM v == 0 /\ f_AA_Mm v == 0 /\ f_AA_mm v == 0 /\
  f_Aa_MM v == 0 /\ f_Aa_Mm v == 0 /\ f_Aa_mm v == 0 /\
  f_aa_MM v == 0 /\ f_aa_Mm v == 0 /\ f_aa_mm v == 0.

Definition nonneg_gam (x : gametes) : Prop :=
  0 <= g_A_M x /\ 0 <= g_A_m x /\ 0 <= g_a_M x /\ 0 <= g_a_m x.

Definition zero_gam (x : gametes) : Prop :=
  g_A_M x == 0 /\ g_A_m x == 0 /\ g_a_M x == 0 /\ g_a_m x == 0.

Definition zero_gen : gen := mkGen 0 0 0 0 0 0 0 0 0.

Definition eqv (v w : gen) : Prop :=
  f_AA_MM v == f_AA_MM w /\ f_AA_Mm v == f_AA_Mm w /\ f_AA_mm v == f_AA_mm w /\
  f_Aa_MM v == f_Aa_MM w /\ f_Aa_Mm v == f_Aa_Mm w /\ f_Aa_mm v == f_Aa_mm w /\
  f_aa_MM v == f_aa_MM w /\ f_aa_Mm v == f_aa_Mm w /\ f_aa_mm v == f_aa_mm w.

Definition eqv_gam (x y : gametes) : Prop :=
  g_A_M x == g_A_M y /\ g_A_m x == g_A_m y /\
  g_a_M x == g_a_M y /\ g_a_m x == g_a_m y.

(** The nine genotypes, numbered 1 to 9 in the source comments. *)
Inductive genotype :=
  AA_MM | AA_Mm | AA_mm | Aa_MM | Aa_Mm | Aa_mm | aa_MM | aa_Mm | aa_mm.

(** Genotypes 4, 5, 7 and 8 are inconstants and can act as cosexes; only
    they self. *)
Definition cosex (g : genotype) : bool :=
  match g with Aa_MM | Aa_Mm | aa_MM | aa_Mm => true | _ => false end.

Definition single (g : genotype) (x : Q) : gen :=
  match g with
  | AA_MM => mkGen x 0 0 0 0 0 0 0 0
  | AA_Mm => mkGen 0 x 0 0 0 0 0 0 0
  | AA_mm => mkGen 0 0 x 0 0 0 0 0 0
  | Aa_MM => mkGen 0 0 0 x 0 0 0 0 0
  | Aa_Mm => mkGen 0 0 0 0 x 0 0 0 0
  | Aa_mm => mkGen 0 0 0 0 0 x 0 0 0
  | aa_MM => mkGen 0 0 0 0 0 0 x 0 0
  | aa_Mm => mkGen 0 0 0 0 0 0 0 x 0
  | aa_mm => mkGen 0 0 0 0 0 0 0 0 x
  end.

End ModelB.

(** ** Bitmap output: [drawbmp]

    The byte stream [drawbmp] writes (identical in both files), each
    [fprintf(outfile, "%c", v)] giving the byte [v mod 256]; [result] is
    the category grid, [result x y] being [result[x][y]].  The stream is
    [None] when the file cannot be created ([exit(1)]). *)
Module Bmp.
Local Open Scope Z_scope.

Definition code (c : category) : Z :=
  match c with NONE => 0 | PGD => 1 | SSD => 2 | DIO => 3 | PAD => 4 | INC => 5 end.

Definition putc (c : Z) : list Z := [c mod 256].

Definition extrabytes (subdivisions magnify : Z) : Z :=
  let e := 4 - Z.rem (subdivisions * magnify * 3) 4 in
  if e =? 4 then 0 else e.

Definition paddedsize (subdivisions magnify : Z) : Z :=
  (subdivisions * magnify * 3 + extrabytes subdivisions magnify)
    * subdivisions * magnify.

Definition uint (x : Z) : Z := x mod 2 ^ 32.

Definition headers_0_5 (subdivisions magnify : Z) : list Z :=
  map uint [paddedsize subdivisions magnify + 54; 0; 54; 40;
            subdivisions * magnify; subdivisions * magnify].

Definition headers_7_12 (subdivisions magnify : Z) : list Z :=
  map uint [0; paddedsize subdivisions magnify; 0; 0; 0; 0].

Definition put_uint (x : Z) : list Z :=
  putc (Z.land x 0x000000FF)
  ++ putc (Z.shiftr (Z.land x 0x0000FF00) 8)
  ++ putc (Z.shiftr (Z.land x 0x00FF0000) 16)
  ++ putc (Z.shiftr (Z.land x 0xFF000000) 24).

Definition header_bytes (subdivisions magnify : Z) : list Z :=
  putc 66 ++ putc 77
  ++ flat_map put_uint (headers_0_5 subdivisions magnify)
  ++ putc 1 ++ putc 0 ++ putc 24 ++ putc 0
  ++ flat_map put_uint (headers_7_12 subdivisions magnify).

Definition colour (r : Z) : Z * Z * Z :=
  let c := (0, 0, 0) in
  let c := if r =? code PGD then (255, 127, 127) else c in
  let c := if r =? code DIO then (127, 0, 255) else c in
  let c := if r =? code SSD then (255, 255, 0) else c in
  let c := if r =? code PAD then (180, 180, 255) else c in
  let c := if r =? code INC then (255, 255, 255) else c in
  c.

Definition pixel_bytes (magnify r : Z) : list Z :=
  let '(red, green, blue) := colour r in
  flat_map (fun _ => putc blue ++ putc green ++ putc red)
           (seq 0 (Z.to_nat magnify)).

Definition row_bytes (subdivisions magnify : Z) (result : Z -> Z -> Z)
    (y : Z) : list Z :=
  flat_map (fun x => pixel_bytes magnify (result (Z.of_nat x) y))
           (seq 0 (Z.to_nat subdivisions))
  ++ (if extrabytes subdivisions magnify =? 0 then []
      else flat_map (fun _ => putc 0)
             (seq 1 (Z.to_nat (extrabytes subdivisions magnify)))).

Definition bitmap_bytes (subdivisions magnify : Z) (result : Z -> Z -> Z)
    : list Z :=
  header_bytes subdivisions magnify
  ++ flat_map (fun y => flat_map (fun _ => row_bytes subdivisions magnify result
                                             (Z.of_nat y))
                                 (seq 0 (Z.to_nat magnify)))
              (seq 0 (Z.to_nat subdivisions)).

Definition drawbmp (opened : bool) (subdivisions magnify : Z)
    (result : Z -> Z -> Z) : option (list Z) :=
  if opened then Some (bitmap_bytes subdivisions magnify result) else None.

Definition le_value (bs : list Z) : Z :=
  fold_right (fun b acc => b + 256 * acc) 0 bs.

Definition read_uint (file : list Z) (off : nat) : Z :=
  le_value (firstn 4 (skipn off file)).

Definition row_length (subdivisions magnify : Z) : nat :=
  Z.to_nat (subdivisions * magnify * 3 + extrabytes subdivisions magnify).

Definition pixel_offset (subdivisions magnify : Z) (x y j i : nat) : nat :=
  54 + (y * Z.to_nat magnify + j) * row_length subdivisions magnify
     + (x * Z.to_nat magnify + i) * 3.

End Bmp.

(** ** Command line: [parsecommandline]

    The global options and their initialisers, and the scan of [argv] from
    index 1.  [atof] and [atoi] are the C library conversions, left
    abstract; [model1] selects the file ([--ppY] exists only in
    deterministic_model1.c).  [Q] and [F] are [M Q] because [--pi] and
    [--omega] divide by the parsed value.  Each test is
    [strcmp(argv[n], o) == 0 && n < argc - 1]: [next] is [argv[n + 1]],
    absent on the last argument; [--pi] and [--omega] read [argv[n + 1]]
    without the bound test, which is [NULL] past the end ([NullArgument]).
    A matched option [continue]s with [n + 1], so its value is scanned
    next as an argument of its own. *)
Module Cmdline.
Import String Ascii.
Local Open Scope string_scope.

Record globals := mkGlobals {
  g_h : Q; g_S : Q; g_d : Q; g_V : Q; g_Q : M Q; g_F : M Q;
  g_PSatF : Q; g_ppY : Q;
  g_pgd : bool; g_subdivisions : Z; g_gnuplot : bool; g_endpoint : Z;
  g_threshold : Q; g_onerun : bool; g_oldformat : bool; g_oldformatlimit : Z
}.

Definition defaults : globals :=
  mkGlobals (1#2) 0 0 1 (ret 1) (ret 1) 0 1 false 201 false 10000 (1#100)
            false false 4.

Definition set_h (x : Q) (g : globals) : globals :=
  mkGlobals x (g_S g) (g_d g) (g_V g) (g_Q g) (g_F g) (g_PSatF g) (g_ppY g)
    (g_pgd g) (g_subdivisions g) (g_gnuplot g) (g_endpoint g)
    (g_threshold g) (g_onerun g) (g_oldformat g) (g_oldformatlimit g).

Definition set_S (x : Q) (g : globals) : globals :=
  mkGlobals (g_h g) x (g_d g) (g_V g) (g_Q g) (g_F g) (g_PSatF g) (g_ppY g)
    (g_pgd g) (g_subdivisions g) (g_gnuplot g) (g_endpoint g)
    (g_threshold g) (g_onerun g) (g_oldformat g) (g_oldformatlimit g).

Definition set_d (x : Q) (g : globals) : globals :=
  mkGlobals (g_h g) (g_S g) x (g_V g) (g_Q g) (g_F g) (g_PSatF g) (g_ppY g)
    (g_pgd g) (g_subdivisions g) (g_gnuplot g) (g_endpoint g)
    (g_threshold g) (g_onerun g) (g_oldformat g) (g_oldformatlimit g).

Definition set_V (x : Q) (g : globals) : globals :=
  mkGlobals (g_h g) (g_S g) (g_d g) x (g_Q g) (g_F g) (g_PSatF g) (g_ppY g)
    (g_pgd g) (g_subdivisions g) (g_gnuplot g) (g_endpoint g)
    (g_threshold g) (g_onerun g) (g_oldformat g) (g_oldformatlimit g).

Definition set_Q (x : M Q) (g : globals) : globals :=
  mkGlobals (g_h g) (g_S g) (g_d g) (g_V g) x (g_F g) (g_PSatF g) (g_ppY g)
    (g_pgd g) (g_subdivisions g) (g_gnuplot g) (g_endpoint g)
    (g_threshold g) (g_onerun g) (g_oldformat g) (g_oldformatlimit g).

Definition set_F (x : M Q) (g : globals) : globals :=
  mkGlobals (g_h g) (g_S g) (g_d g) (g_V g) (g_Q g) x (g_PSatF g) (g_ppY g)
    (g_pgd g) (g_subdivisions g) (g_gnuplot g) (g_endpoint g)
    (g_threshold g) (g_onerun g) (g_oldformat g) (g_oldformatlimit g).

Definition set_PSatF (x : Q) (g : globals) : globals :=
  mkGlobals (g_h g) (g_S g) (g_d g) (g_V g) (g_Q g) (g_F g) x (g_ppY g)
    (g_pgd g) (g_subdivisions g) (g_gnuplot g) (g_endpoint g)
    (g_threshold g) (g_onerun g) (g_oldformat g) (g_oldformatlimit g).

Definition set_ppY (x : Q) (g : globals) : globals :=
  mkGlobals (g_h g) (g_S g) (g_d g) (g_V g) (g_Q g) (g_F g) (g_PSatF g) x
    (g_pgd g) (g_subdivisions g) (g_gnuplot g) (g_endpoint g)
    (g_threshold g) (g_onerun g) (g_oldformat g) (g_oldformatlimit g).

Definition set_pgd (x : bool) (g : globals) : globals :=
  mkGlobals (g_h g) (g_S g) (g_d g) (g_V g) (g_Q g) (g_F g) (g_PSatF g)
    (g_ppY g) x (g_subdivisions g) (g_gnuplot g) (g_endpoint g)
    (g_threshold g) (g_onerun g) (g_oldformat g) (g_oldformatlimit g).

Definition set_subdivisions (x : Z) (g : globals) : globals :=
  mkGlobals (g_h g) (g_S g) (g_d g) (g_V g) (g_Q g) (g_F g) (g_PSatF g)
    (g_ppY g) (g_pgd g) x (g_gnuplot g) (g_endpoint g) (g_threshold g)
    (g_onerun g) (g_oldformat g) (g_oldformatlimit g).

Definition set_gnuplot (x : bool) (g : globals) : globals :=
  mkGlobals (g_h g) (g_S g) (g_d g) (g_V g) (g_Q g) (g_F g) (g_PSatF g)
    (g_ppY g) (g_pgd g) (g_subdivisions g) x (g_endpoint g) (g_threshold g)
    (g_onerun g) (g_oldformat g) (g_oldformatlimit g).

Definition set_endpoint (x : Z) (g : globals) : globals :=
  mkGlobals (g_h g) (g_S g) (g_d g) (g_V g) (g_Q g) (g_F g) (g_PSatF g)
    (g_ppY g) (g_pgd g) (g_subdivisions g) (g_gnuplot g) x (g_threshold g)
    (g_onerun g) (g_oldformat g) (g_oldformatlimit g).

Definition set_threshold (x : Q) (g : globals) : globals :=
  mkGlobals (g_h g) (g_S g) (g_d g) (g_V g) (g_Q g) (g_F g) (g_PSatF g)
    (g_ppY g) (g_pgd g) (g_subdivisions g) (g_gnuplot g) (g_endpoint g) x
    (g_onerun g) (g_oldformat g) (g_oldformatlimit g).

Definition set_onerun (x : bool) (g : globals) : globals :=
  mkGlobals (g_h g) (g_S g) (g_d g) (g_V g) (g_Q g) (g_F g) (g_PSatF g)
    (g_ppY g) (g_pgd g) (g_subdivisions g) (g_gnuplot g) (g_endpoint g)
    (g_threshold g) x (g_oldformat g) (g_oldformatlimit g).

Definition set_oldformat (x : bool) (g : globals) : globals :=
  mkGlobals (g_h g) (g_S g) (g_d g) (g_V g) (g_Q g) (g_F g) (g_PSatF g)
    (g_ppY g) (g_pgd g) (g_subdivisions g) (g_gnuplot g) (g_endpoint g)
    (g_threshold g) (g_onerun g) x (g_oldformatlimit g).

Definition set_oldformatlimit (x : Z) (g : globals) : globals :=
  mkGlobals (g_h g) (g_S g) (g_d g) (g_V g) (g_Q g) (g_F g) (g_PSatF g)
    (g_ppY g) (g_pgd g) (g_subdivisions g) (g_gnuplot g) (g_endpoint g)
    (g_threshold g) (g_onerun g) (g_oldformat g) x.

Definition isdigit (c : Ascii.ascii) : bool :=
  Nat.leb 48 (Ascii.nat_of_ascii c) && Nat.leb (Ascii.nat_of_ascii c) 57.

Definition unrecognised (a : string) : bool :=
  match String.get 0 a with
  | Some c =>
      Ascii.eqb c "-"%char &&
      negb (match String.get 1 a with Some c1 => isdigit c1 | None => false end)
  | None => false
  end.

Definition is_one_of (a : string) (names : list string) : bool :=
  existsb (String.eqb a) names.

Definition value_for (names : list string) (a : string) (next : option string)
    : option string :=
  if is_one_of a names then next else None.

Inductive action := Continue (g : globals) | Reject | NullArgument.

Inductive outcome :=
  | Parsed (g : globals)
  | Unrecognised (arg : string)
  | NullArgv.

Section Parse.

Variable atof : string -> Q.
Variable atoi : string -> Z.
Variable model1 : bool.

Definition parse_one (a : string) (next : option string) (g : globals)
    : action :=
  match value_for ["-H"; "-h"; "--inconstanth"] a next with
  | Some v => Continue (set_h (atof v) g) | None =>
  match value_for ["-S"; "-s"; "--selfing"] a next with
  | Some v => Continue (set_S (atof v) g) | None =>
  match value_for ["-D"; "-d"; "--depression"] a next with
  | Some v => Continue (set_d (atof v) g) | None =>
  match value_for ["--PSatF"] a next with
  | Some v => Continue (set_PSatF (atof v) g) | None =>
  match value_for (if model1 then ["--ppY"] else []) a next with
  | Some v => Continue (set_ppY (atof v) g) | None =>
  match value_for ["-V"; "-v"] a next with
  | Some v => Continue (set_V (atof v) g) | None =>
  match value_for ["--yypenalty"] a next with
  | Some v => Continue (set_V (1 - atof v) g) | None =>
  if is_one_of a ["--ancient"; "--ancientdioecy"] then Continue (set_V 0 g) else
  if is_one_of a ["--recent"; "--recentdioecy"] then Continue (set_V 1 g) else
  match value_for ["-Q"; "-q"] a next with
  | Some v => Continue (set_Q (ret (atof v)) g) | None =>
  match value_for ["-F"; "-f"] a next with
  | Some v => Continue (set_F (ret (atof v)) g) | None =>
  match value_for ["-K"; "--malek"] a next with
  | Some v => Continue (set_Q (divq 1 (1 + atof v)) g) | None =>
  if is_one_of a ["--pi"] then
    match next with
    | Some v => Continue (set_Q (divq 1 (atof v)) g)
    | None => NullArgument
    end else
  match value_for ["-k"; "--femalek"] a next with
  | Some v => Continue (set_F (divq 1 (1 + atof v)) g) | None =>
  if is_one_of a ["--omega"] then
    match next with
    | Some v => Continue (set_F (divq 1 (atof v)) g)
    | None => NullArgument
    end else
  match value_for ["--threshold"] a next with
  | Some v => Continue (set_threshold (atof v) g) | None =>
  match value_for ["--subdivisions"] a next with
  | Some v => Continue (set_subdivisions (atoi v) g) | None =>
  match value_for ["--oldformatlimit"] a next with
  | Some v => Continue (set_oldformatlimit (atoi v) g) | None =>
  match value_for ["--endpoint"; "--iterations"] a next with
  | Some v => Continue (set_endpoint (atoi v) g) | None =>
  if is_one_of a ["--onerun"] then Continue (set_onerun true g) else
  if is_one_of a ["--pgd"] then Continue (set_pgd true g) else
  if is_one_of a ["--oldformat"] then Continue (set_oldformat true g) else
  if is_one_of a ["--gnuplot"] then Continue (set_gnuplot true g) else
  if unrecognised a then Reject else Continue g
  end end end end end end end end end end end end end end end.

Fixpoint parse_args (args : list string) (g : globals) : outcome :=
  match args with
  | [] => Parsed g
  | a :: rest =>
      match parse_one a (hd_error rest) g with
      | Continue g' => parse_args rest g'
      | Reject => Unrecognised a
      | NullArgument => NullArgv
      end
  end.

Definition parsecommandline (argv : list string) : outcome :=
  parse_args (tl argv) defaults.

Definition value_options : list (string * (string -> globals -> globals)) :=
  [("-H", fun v => set_h (atof v)); ("-h", fun v => set_h (atof v));
   ("--inconstanth", fun v => set_h (atof v));
   ("-S", fun v => set_S (atof v)); ("-s", fun v => set_S (atof v));
   ("--selfing", fun v => set_S (atof v));
   ("-D", fun v => set_d (atof v)); ("-d", fun v => set_d (atof v));
   ("--depression", fun v => set_d (atof v));
   ("--PSatF", fun v => set_PSatF (atof v));
   ("-V", fun v => set_V (atof v)); ("-v", fun v => set_V (atof v));
   ("--yypenalty", fun v => set_V (1 - atof v));
   ("-Q", fun v => set_Q (ret (atof v))); ("-q", fun v => set_Q (ret (atof v)));
   ("-F", fun v => set_F (ret (atof v))); ("-f", fun v => set_F (ret (atof v)));
   ("-K", fun v => set_Q (divq 1 (1 + atof v)));
   ("--malek", fun v => set_Q (divq 1 (1 + atof v)));
   ("--pi", fun v => set_Q (divq 1 (atof v)));
   ("-k", fun v => set_F (divq 1 (1 + atof v)));
   ("--femalek", fun v => set_F (divq 1 (1 + atof v)));
   ("--omega", fun v => set_F (divq 1 (atof v)));
   ("--threshold", fun v => set_threshold (atof v));
   ("--subdivisions", fun v => set_subdivisions (atoi v));
   ("--oldformatlimit", fun v => set_oldformatlimit (atoi v));
   ("--endpoint", fun v => set_endpoint (atoi v));
   ("--iterations", fun v => set_endpoint (atoi v))]
  ++ (if model1 then [("--ppY", fun v => set_ppY (atof v))] else []).

End Parse.

Definition flag_options : list (string * (globals -> globals)) :=
  [("--ancient", set_V 0); ("--ancientdioecy", set_V 0);
   ("--recent", set_V 1); ("--recentdioecy", set_V 1);
   ("--onerun", set_onerun true); ("--pgd", set_pgd true);
   ("--oldformat", set_oldformat true); ("--gnuplot", set_gnuplot true)].

End Cmdline.

(** The (Q, F) point of grid cell (x, y) of the sweep in [main]:
    [Q = (float) x / (subdivisions - 1); F = (float) y / (subdivisions - 1);]
    or, in the old format,
    [K = ((float) x / (subdivisions - 1)) * oldformatlimit; ...;
     Q = 1 / (1 + K); F = 1 / (1 + k);] *)
Definition grid_QF (oldformat : bool) (subdivisions oldformatlimit x y : Z)
    : M (Q * Q) :=
  if negb oldformat then
    let* q := divq (inject_Z x) (inject_Z (subdivisions - 1)) in
    let* f := divq (inject_Z y) (inject_Z (subdivisions - 1)) in
    ret (q, f)
  else
    let* kx := divq (inject_Z x) (inject_Z (subdivisions - 1)) in
    let* ky := divq (inject_Z y) (inject_Z (subdivisions - 1)) in
    let K := kx * inject_Z oldformatlimit in
    let k := ky * inject_Z oldformatlimit in
    let* q := divq 1 (1 + K) in
    let* f := divq 1 (1 + k) in
    ret (q, f).

(** * Properties *)

(** ** Arithmetic and checked-division facts *)

Lemma Qgtb_true (x y : Q) : Qgtb x y = true <-> y < x.
Proof.
  unfold Qgtb. rewrite negb_true_iff. split; intro H.
  - apply Qnot_le_lt. intro H'. apply Qle_bool_iff in H'. congruence.
  - destruct (Qle_bool x y) eqn:E; [|reflexivity].
    apply Qle_bool_iff in E. lra.
Qed.

Lemma Qgtb_false (x y : Q) : Qgtb x y = false <-> x <= y.
Proof.
  unfold Qgtb. rewrite negb_false_iff. apply Qle_bool_iff.
Qed.

Lemma Qle_bool_false (x y : Q) : Qle_bool x y = false -> y < x.
Proof.
  intro E. apply Qnot_le_lt. intro H. apply Qle_bool_iff in H. congruence.
Qed.

Lemma divq_ok (a b : Q) : ~ b == 0 -> divq a b = Some (a / b).
Proof.
  intro H. unfold divq. destruct (Qeq_bool b 0) eqn:E; [|reflexivity].
  apply Qeq_bool_iff in E. contradiction.
Qed.

Lemma divq_pos (a b : Q) : 0 < b -> divq a b = Some (a / b).
Proof. intro H. apply divq_ok. intro E. rewrite E in H. lra. Qed.

Lemma divq_zero (a b : Q) : b == 0 -> divq a b = None.
Proof.
  intro H. unfold divq. apply Qeq_bool_iff in H. now rewrite H.
Qed.

Lemma Qadd_nonneg (a b : Q) : 0 <= a -> 0 <= b -> 0 <= a + b.
Proof. intros. lra. Qed.

Lemma Qdiv_nonneg (a b : Q) : 0 <= a -> 0 <= b -> 0 <= a / b.
Proof.
  intros Ha Hb. unfold Qdiv. apply Qmult_le_0_compat; [exact Ha|].
  now apply Qinv_le_0_compat.
Qed.

(** When a receiver is pollen limited, its threshold exceeds the
    non-negative pollen total, so the division is by a positive number. *)
Lemma limited_ok (tp thr x : Q) :
  0 <= tp ->
  exists r, limited tp thr x = Some r /\ (0 <= x -> 0 <= r) /\ (x == 0 -> r == 0).
Proof.
  intro Htp. unfold limited.
  destruct (Qle_bool thr tp) eqn:E.
  - exists x. repeat split; auto.
  - apply Qle_bool_false in E. rewrite divq_pos by lra.
    exists (x * tp / thr). repeat split.
    + intro Hx. apply Qdiv_nonneg; [apply Qmult_le_0_compat|]; lra.
    + intro Hx. rewrite Hx. field. intro Z. rewrite Z in E. lra.
Qed.

(** Solve [0 <= e] for [e] built from sums, products and quotients of
    non-negative atoms. *)
Ltac qnonneg :=
  repeat match goal with
  | |- 0 <= _ + _ => apply Qadd_nonneg
  | |- 0 <= _ * _ => apply Qmult_le_0_compat
  | |- 0 <= _ / _ => apply Qdiv_nonneg
  | N : 0 <= ?x -> 0 <= ?r |- 0 <= ?r => apply N
  end; try lra.

(** Consume the [limited] calls of an egg computation. *)
Ltac run_limited :=
  repeat match goal with
  | Htp : 0 <= ?tp |- context [limited ?tp ?thr ?x] =>
      let r := fresh "r" in let E := fresh "E" in
      let N := fresh "N" in let Z := fresh "Z" in
      destruct (limited_ok tp thr x Htp) as (r & E & N & Z);
      rewrite E; cbn [bind]
  end.

(** ** Model 1 *)
Module FactsA.
Import ModelA.

Lemma pollen_raw_nonneg_A (p : params) (v : gen) :
  nonneg v -> 0 <= h p <= 1 -> 0 <= Qp p -> 0 <= ppY p ->
  nonneg_al (pollen_raw p v).
Proof.
  intros (H1 & H2 & H3 & H4 & H5 & H6) Hh HQ HY.
  unfold nonneg_al, pollen_raw, pollen_sum; simpl.
  repeat split; qnonneg.
Qed.

Lemma pollen_spec_A (p : params) (v : gen) :
  nonneg v -> 0 <= h p <= 1 -> 0 <= Qp p -> 0 <= ppY p ->
  exists pp, pollen p v = Some (pp, totalpollen p v) /\
    0 <= totalpollen p v /\ nonneg_al pp /\
    (0 < totalpollen p v -> g_A pp + g_a pp + g_as pp == 1) /\
    (totalpollen p v <= 0 -> totalpollen p v == 0 /\ zero_al pp).
Proof.
  intros Hv Hh HQ HY.
  pose proof (pollen_raw_nonneg_A p v Hv Hh HQ HY) as Hr.
  unfold pollen, totalpollen.
  destruct (pollen_raw p v) as [a b c]; unfold nonneg_al, zero_al in *; simpl in *.
  destruct Hr as (Ha & Hb & Hc).
  destruct (Qgtb (a + b + c) 0) eqn:E.
  - apply Qgtb_true in E.
    rewrite !divq_pos by exact E. cbn [bind ret].
    eexists; split; [reflexivity|]; simpl.
    repeat split; try qnonneg; try lra.
    intros _. field. intro Z. rewrite Z in E. lra.
  - apply Qgtb_false in E.
    eexists; split; [reflexivity|]; simpl.
    repeat split; lra.
Qed.

Lemma eggs_spec_A (p : params) (v : gen) (tp : Q) :
  0 <= tp ->
  exists e, eggs p v tp = Some e /\
    (nonneg v -> 0 <= h p -> Sr p <= 1 -> 0 <= F p -> nonneg_al e) /\
    (zero v -> zero_al e).
Proof.
  intro Htp. unfold eggs. run_limited.
  eexists; split; [reflexivity|]. split.
  - intros (H1 & H2 & H3 & H4 & H5 & H6) Hh HS HF.
    unfold nonneg_al; simpl. repeat split; qnonneg.
  - intros (H1 & H2 & H3 & H4 & H5 & H6). unfold zero_al; simpl.
    repeat match goal with
    | Z : ?x == 0 -> ?r == 0 |- _ =>
        assert (r == 0) by (apply Z; rewrite ?H1, ?H2, ?H3, ?H4, ?H5, ?H6; ring);
        clear Z
    end.
    repeat split; lra.
Qed.

Lemma selfed_spec_A (p : params) (v : gen) :
  ~ 1 + ppY p == 0 ->
  exists s, selfed p v = Some s /\
    (nonneg v -> 0 <= ppY p -> 0 <= Sr p -> d p <= 1 -> 0 <= h p -> 0 <= F p ->
       nonneg s) /\
    (zero v -> zero s) /\
    total s == (f_Aas v + f_aas v + f_asas v) * Sr p * (1 - d p) * h p * F p.
Proof.
  intro HY. unfold selfed. rewrite !divq_ok by exact HY. cbn [bind ret].
  eexists; split; [reflexivity|]. split; [|split].
  - intros (H1 & H2 & H3 & H4 & H5 & H6) HY0 HS Hd Hh HF.
    unfold nonneg; simpl. repeat split; qnonneg.
  - intros (H1 & H2 & H3 & H4 & H5 & H6); unfold zero; simpl.
    repeat split; rewrite ?H1, ?H2, ?H3, ?H4, ?H5, ?H6; ring.
  - unfold total; simpl. field. exact HY.
Qed.

Lemma outcross_nonneg_A (pp e : alleles) :
  nonneg_al pp -> nonneg_al e -> nonneg (outcross pp e).
Proof.
  intros (H1 & H2 & H3) (H4 & H5 & H6). unfold nonneg; simpl.
  repeat split; qnonneg.
Qed.

Lemma normalise_spec_A (x : gen) :
  nonneg x ->
  exists y, normalise x = Some y /\ nonneg y /\
    ((0 < total x /\ total y == 1) \/ (total x == 0 /\ y = x /\ zero y)).
Proof.
  intros Hx. pose proof Hx as (H1 & H2 & H3 & H4 & H5 & H6).
  unfold normalise.
  destruct (Qgtb (total x) 0) eqn:E.
  - apply Qgtb_true in E. rewrite !divq_pos by exact E. cbn [bind ret].
    eexists; split; [reflexivity|]. split.
    + unfold nonneg; simpl. repeat split; qnonneg.
    + left. split; [exact E|]. unfold total in *; simpl.
      field. intro Z. rewrite Z in E. lra.
  - apply Qgtb_false in E. exists x. split; [reflexivity|]. split; [exact Hx|].
    right. unfold total in E. unfold zero, total. repeat split; lra.
Qed.

Lemma normalise_some_A (x : gen) : exists y, normalise x = Some y.
Proof.
  unfold normalise. destruct (Qgtb (total x) 0) eqn:E.
  - apply Qgtb_true in E. rewrite !divq_pos by exact E. cbn [bind ret].
    eexists; reflexivity.
  - eexists; reflexivity.
Qed.

Lemma step_raw_spec_A (p : params) (v : gen) :
  nonneg v -> 0 <= h p <= 1 -> 0 <= Sr p <= 1 -> 0 <= d p <= 1 ->
  0 <= V p -> 0 <= Qp p -> 0 <= F p -> 0 <= ppY p ->
  exists x, step_raw p v = Some x /\ nonneg x.
Proof.
  intros Hv Hh HS Hd HV HQ HF HY.
  destruct (pollen_spec_A p v Hv Hh HQ HY) as (pp & Ep & Htp & Hpp & _ & _).
  destruct (eggs_spec_A p v (totalpollen p v) Htp) as (e & Ee & He & _).
  destruct (selfed_spec_A p v) as (s & Es & Hs & _ & _); [lra|].
  unfold step_raw. rewrite Ep; cbn [bind fst snd]. rewrite Ee; cbn [bind].
  rewrite Es; cbn [bind ret].
  eexists; split; [reflexivity|].
  pose proof (outcross_nonneg_A pp e Hpp (He Hv ltac:(lra) ltac:(lra) HF)) as Ho.
  pose proof (Hs Hv HY ltac:(lra) ltac:(lra) ltac:(lra) HF) as Hs'.
  destruct (outcross pp e) as [o1 o2 o3 o4 o5 o6], s as [s1 s2 s3 s4 s5 s6].
  unfold nonneg in *; simpl in *.
  destruct Ho as (? & ? & ? & ? & ? & ?), Hs' as (? & ? & ? & ? & ? & ?).
  repeat split; qnonneg.
Qed.

(** Every division of a generation is by a non-zero number as soon as the
    pollen total cannot be negative and [1 + ppY] is not zero. *)
Lemma step_raw_some_A (p : params) (v : gen) :
  nonneg v -> 0 <= h p <= 1 -> 0 <= Qp p -> 0 <= ppY p ->
  exists x, step_raw p v = Some x.
Proof.
  intros Hv Hh HQ HY.
  destruct (pollen_spec_A p v Hv Hh HQ HY) as (pp & Ep & Htp & _).
  destruct (eggs_spec_A p v (totalpollen p v) Htp) as (e & Ee & _).
  destruct (selfed_spec_A p v) as (s & Es & _); [lra|].
  unfold step_raw. rewrite Ep; cbn [bind fst snd]. rewrite Ee; cbn [bind].
  rewrite Es; cbn [bind ret]. eexists; reflexivity.
Qed.

Lemma pollen_zero_A (p : params) (v : gen) :
  zero v ->
  exists pp, pollen p v = Some (pp, totalpollen p v) /\
    totalpollen p v == 0 /\ zero_al pp.
Proof.
  intros (H1 & H2 & H3 & H4 & H5 & H6).
  assert (Hr : zero_al (pollen_raw p v)).
  { unfold zero_al, pollen_raw, pollen_sum; simpl.
    repeat split; rewrite ?H1, ?H2, ?H3, ?H4, ?H5, ?H6; ring. }
  unfold pollen, totalpollen.
  destruct (pollen_raw p v) as [a b c]; unfold zero_al in *; simpl in *.
  destruct Hr as (Ha & Hb & Hc).
  assert (E : Qgtb (a + b + c) 0 = false) by (apply Qgtb_false; lra).
  rewrite E. eexists; split; [reflexivity|]. simpl. repeat split; lra.
Qed.

Lemma step_raw_zero_A (p : params) (v : gen) :
  zero v -> ~ 1 + ppY p == 0 ->
  exists x, step_raw p v = Some x /\ zero x.
Proof.
  intros Hv HY.
  destruct (pollen_zero_A p v Hv) as (pp & Ep & Htp & Hpp).
  destruct (eggs_spec_A p v (totalpollen p v)) as (e & Ee & _ & He); [lra|].
  destruct (selfed_spec_A p v HY) as (s & Es & _ & Hs & _).
  unfold step_raw. rewrite Ep; cbn [bind fst snd]. rewrite Ee; cbn [bind].
  rewrite Es; cbn [bind ret].
  eexists; split; [reflexivity|].
  specialize (He Hv). specialize (Hs Hv).
  destruct pp as [p1 p2 p3], e as [e1 e2 e3], s as [s1 s2 s3 s4 s5 s6].
  unfold zero, zero_al in *; simpl in *.
  destruct Hpp as (P1 & P2 & P3), He as (E1 & E2 & E3),
    Hs as (S1 & S2 & S3 & S4 & S5 & S6).
  repeat split; rewrite ?P1, ?P2, ?P3, ?E1, ?E2, ?E3,
    ?S1, ?S2, ?S3, ?S4, ?S5, ?S6; ring.
Qed.

Lemma normalise_zero_A (x : gen) : zero x -> normalise x = Some x.
Proof.
  intros (H1 & H2 & H3 & H4 & H5 & H6). unfold normalise.
  assert (E : Qgtb (total x) 0 = false)
    by (apply Qgtb_false; unfold total; lra).
  now rewrite E.
Qed.

End FactsA.

(** ** Model 2 *)
Module FactsB.
Import ModelB.

Ltac zeros H :=
  destruct H as (H1 & H2 & H3 & H4 & H5 & H6 & H7 & H8 & H9).

Lemma pollen_raw_nonneg_B (p : params) (v : gen) :
  nonneg v -> 0 <= h p <= 1 -> 0 <= Qp p -> nonneg_gam (pollen_raw p v).
Proof.
  intros Hv Hh HQ. zeros Hv.
  unfold nonneg_gam, pollen_raw; simpl. repeat split; qnonneg.
Qed.

Lemma pollen_spec_B (p : params) (v : gen) :
  nonneg v -> 0 <= h p <= 1 -> 0 <= Qp p ->
  exists pp, pollen p v = Some (pp, totalpollen p v) /\
    0 <= totalpollen p v /\ nonneg_gam pp /\
    (0 < totalpollen p v -> g_A_M pp + g_A_m pp + g_a_M pp + g_a_m pp == 1) /\
    (totalpollen p v <= 0 -> totalpollen p v == 0 /\ zero_gam pp).
Proof.
  intros Hv Hh HQ.
  pose proof (pollen_raw_nonneg_B p v Hv Hh HQ) as Hr.
  unfold pollen, totalpollen.
  destruct (pollen_raw p v) as [a b c e];
    unfold nonneg_gam, zero_gam in *; simpl in *.
  destruct Hr as (Ha & Hb & Hc & He).
  destruct (Qgtb (a + b + c + e) 0) eqn:E.
  - apply Qgtb_true in E.
    rewrite !divq_pos by exact E. cbn [bind ret].
    eexists; split; [reflexivity|]; simpl.
    repeat split; try qnonneg; try lra.
    intros _. field. intro Z. rewrite Z in E. lra.
  - apply Qgtb_false in E.
    eexists; split; [reflexivity|]; simpl.
    repeat split; lra.
Qed.

Lemma eggs_spec_B (p : params) (v : gen) (tp : Q) :
  0 <= tp ->
  exists e, eggs p v tp = Some e /\
    (nonneg v -> 0 <= h p -> Sr p <= 1 -> 0 <= F p -> nonneg_gam e) /\
    (zero v -> zero_gam e).
Proof.
  intro Htp. unfold eggs. run_limited.
  eexists; split; [reflexivity|]. split.
  - intros Hv Hh HS HF. zeros Hv.
    unfold nonneg_gam; simpl. repeat split; qnonneg.
  - intros Hv. zeros Hv. unfold zero_gam; simpl.
    repeat match goal with
    | Z : ?x == 0 -> ?r == 0 |- _ =>
        assert (r == 0) by (apply Z;
          rewrite ?H1, ?H2, ?H3, ?H4, ?H5, ?H6, ?H7, ?H8, ?H9; ring);
        clear Z
    end.
    repeat split; lra.
Qed.

Lemma selfed_spec_B (p : params) (v : gen) :
  (nonneg v -> 0 <= Sr p -> d p <= 1 -> 0 <= h p -> 0 <= F p ->
     nonneg (selfed p v)) /\
  (zero v -> zero (selfed p v)) /\
  total (selfed p v) ==
    (f_Aa_MM v + f_Aa_Mm v + f_aa_MM v + f_aa_Mm v) * Sr p * (1 - d p) * h p * F p.
Proof.
  split; [|split].
  - intros Hv HS Hd Hh HF. zeros Hv. unfold nonneg, selfed; simpl.
    repeat split; qnonneg.
  - intros Hv. zeros Hv. unfold zero, selfed; simpl.
    repeat split; rewrite ?H1, ?H2, ?H3, ?H4, ?H5, ?H6, ?H7, ?H8, ?H9; ring.
  - unfold total, selfed; simpl. ring.
Qed.

Lemma outcross_nonneg_B (pp e : gametes) :
  nonneg_gam pp -> nonneg_gam e -> nonneg (outcross pp e).
Proof.
  intros (H1 & H2 & H3 & H4) (H5 & H6 & H7 & H8). unfold nonneg; simpl.
  repeat split; qnonneg.
Qed.

Lemma normalise_spec_B (x : gen) :
  nonneg x ->
  exists y, normalise x = Some y /\ nonneg y /\
    ((0 < total x /\ total y == 1) \/ (total x == 0 /\ y = x /\ zero y)).
Proof.
  intros Hx. pose proof Hx as Hx'. zeros Hx'.
  unfold normalise.
  destruct (Qgtb (total x) 0) eqn:E.
  - apply Qgtb_true in E. rewrite !divq_pos by exact E. cbn [bind ret].
    eexists; split; [reflexivity|]. split.
    + unfold nonneg; simpl. repeat split; qnonneg.
    + left. split; [exact E|]. unfold total in *; simpl.
      field. intro Z. rewrite Z in E. lra.
  - apply Qgtb_false in E. exists x. split; [reflexivity|]. split; [exact Hx|].
    right. unfold total in E. unfold zero, total. repeat split; lra.
Qed.

Lemma normalise_some_B (x : gen) : exists y, normalise x = Some y.
Proof.
  unfold normalise. destruct (Qgtb (total x) 0) eqn:E.
  - apply Qgtb_true in E. rewrite !divq_pos by exact E. cbn [bind ret].
    eexists; reflexivity.
  - eexists; reflexivity.
Qed.

Lemma normalise_zero_B (x : gen) : zero x -> normalise x = Some x.
Proof.
  intros Hx. zeros Hx. unfold normalise.
  assert (E : Qgtb (total x) 0 = false)
    by (apply Qgtb_false; unfold total; lra).
  now rewrite E.
Qed.

Lemma step_raw_spec_B (p : params) (v : gen) :
  nonneg v -> 0 <= h p <= 1 -> 0 <= Sr p <= 1 -> 0 <= d p <= 1 ->
  0 <= V p -> 0 <= Qp p -> 0 <= F p ->
  exists x, step_raw p v = Some x /\ nonneg x.
Proof.
  intros Hv Hh HS Hd HV HQ HF.
  destruct (pollen_spec_B p v Hv Hh HQ) as (pp & Ep & Htp & Hpp & _ & _).
  destruct (eggs_spec_B p v (totalpollen p v) Htp) as (e & Ee & He & _).
  destruct (selfed_spec_B p v) as (Hs & _ & _).
  unfold step_raw. rewrite Ep; cbn [bind fst snd]. rewrite Ee; cbn [bind ret].
  eexists; split; [reflexivity|].
  pose proof (outcross_nonneg_B pp e Hpp (He Hv ltac:(lra) ltac:(lra) HF)) as Ho.
  pose proof (Hs Hv ltac:(lra) ltac:(lra) ltac:(lra) HF) as Hs'.
  destruct (outcross pp e) as [o1 o2 o3 o4 o5 o6 o7 o8 o9],
    (selfed p v) as [s1 s2 s3 s4 s5 s6 s7 s8 s9].
  unfold nonneg in *; simpl in *.
  destruct Ho as (? & ? & ? & ? & ? & ? & ? & ? & ?),
    Hs' as (? & ? & ? & ? & ? & ? & ? & ? & ?).
  repeat split; qnonneg.
Qed.

Lemma step_raw_some_B (p : params) (v : gen) :
  nonneg v -> 0 <= h p <= 1 -> 0 <= Qp p ->
  exists x, step_raw p v = Some x.
Proof.
  intros Hv Hh HQ.
  destruct (pollen_spec_B p v Hv Hh HQ) as (pp & Ep & Htp & _).
  destruct (eggs_spec_B p v (totalpollen p v) Htp) as (e & Ee & _).
  unfold step_raw. rewrite Ep; cbn [bind fst snd]. rewrite Ee; cbn [bind ret].
  eexists; reflexivity.
Qed.

Lemma pollen_zero_B (p : params) (v : gen) :
  zero v ->
  exists pp, pollen p v = Some (pp, totalpollen p v) /\
    totalpollen p v == 0 /\ zero_gam pp.
Proof.
  intros Hv. zeros Hv.
  assert (Hr : zero_gam (pollen_raw p v)).
  { unfold zero_gam, pollen_raw; simpl.
    repeat split; rewrite ?H1, ?H2, ?H3, ?H4, ?H5, ?H6, ?H7, ?H8, ?H9; ring. }
  unfold pollen, totalpollen.
  destruct (pollen_raw p v) as [a b c e]; unfold zero_gam in *; simpl in *.
  destruct Hr as (Ha & Hb & Hc & He).
  assert (E : Qgtb (a + b + c + e) 0 = false) by (apply Qgtb_false; lra).
  rewrite E. eexists; split; [reflexivity|]. simpl. repeat split; lra.
Qed.

Lemma step_raw_zero_B (p : params) (v : gen) :
  zero v -> exists x, step_raw p v = Some x /\ zero x.
Proof.
  intros Hv.
  destruct (pollen_zero_B p v Hv) as (pp & Ep & Htp & Hpp).
  destruct (eggs_spec_B p v (totalpollen p v)) as (e & Ee & _ & He); [lra|].
  destruct (selfed_spec_B p v) as (_ & Hs & _).
  unfold step_raw. rewrite Ep; cbn [bind fst snd]. rewrite Ee; cbn [bind ret].
  eexists; split; [reflexivity|].
  specialize (He Hv). specialize (Hs Hv).
  destruct pp as [p1 p2 p3 p4], e as [e1 e2 e3 e4],
    (selfed p v) as [s1 s2 s3 s4 s5 s6 s7 s8 s9].
  unfold zero, zero_gam in *; simpl in *.
  destruct Hpp as (P1 & P2 & P3 & P4), He as (E1 & E2 & E3 & E4),
    Hs as (S1 & S2 & S3 & S4 & S5 & S6 & S7 & S8 & S9).
  repeat split; rewrite ?P1, ?P2, ?P3, ?P4, ?E1, ?E2, ?E3, ?E4,
    ?S1, ?S2, ?S3, ?S4, ?S5, ?S6, ?S7, ?S8, ?S9; ring.
Qed.

End FactsB.

(** ** Results depend only on the values of the inputs *)

Lemma opt_rel_bind {A B} (R : A -> A -> Prop) (R' : B -> B -> Prop)
    (m m' : M A) (k k' : A -> M B) :
  opt_rel R m m' -> (forall a a', R a a' -> opt_rel R' (k a) (k' a')) ->
  opt_rel R' (bind m k) (bind m' k').
Proof.
  intros Hm Hk. destruct m as [a|], m' as [a'|]; simpl in *; try contradiction.
  - now apply Hk.
  - exact I.
Qed.

Lemma opt_rel_ret {A} (R : A -> A -> Prop) (a a' : A) :
  R a a' -> opt_rel R (ret a) (ret a').
Proof. intro H. exact H. Qed.

Lemma Qle_bool_compat (x x' y y' : Q) :
  x == x' -> y == y' -> Qle_bool x y = Qle_bool x' y'.
Proof.
  intros Hx Hy. destruct (Qle_bool x y) eqn:E1, (Qle_bool x' y') eqn:E2;
    try reflexivity.
  - apply Qle_bool_iff in E1. rewrite Hx, Hy in E1.
    apply Qle_bool_iff in E1. congruence.
  - apply Qle_bool_iff in E2. rewrite <- Hx, <- Hy in E2.
    apply Qle_bool_iff in E2. congruence.
Qed.

Lemma Qgtb_compat (x x' y y' : Q) :
  x == x' -> y == y' -> Qgtb x y = Qgtb x' y'.
Proof. intros Hx Hy. unfold Qgtb. now rewrite (Qle_bool_compat x x' y y'). Qed.

Lemma divq_rel (a a' b b' : Q) :
  a == a' -> b == b' -> opt_rel Qeq (divq a b) (divq a' b').
Proof.
  intros Ha Hb. unfold divq.
  destruct (Qeq_bool b 0) eqn:E1, (Qeq_bool b' 0) eqn:E2; simpl; try exact I.
  - apply Qeq_bool_iff in E1. rewrite Hb in E1.
    apply Qeq_bool_iff in E1. congruence.
  - apply Qeq_bool_iff in E2. rewrite <- Hb in E2.
    apply Qeq_bool_iff in E2. congruence.
  - rewrite Ha, Hb. reflexivity.
Qed.

Lemma limited_rel (tp tp' thr thr' x x' : Q) :
  tp == tp' -> thr == thr' -> x == x' ->
  opt_rel Qeq (limited tp thr x) (limited tp' thr' x').
Proof.
  intros Ht Hr Hx. unfold limited.
  rewrite (Qle_bool_compat thr thr' tp tp' Hr Ht).
  destruct (Qle_bool thr' tp').
  - exact Hx.
  - apply divq_rel; [rewrite Hx, Ht; reflexivity | exact Hr].
Qed.

Lemma classify_compat (t t' fe fe' ma ma' inc inc' : Q) :
  t == t' -> fe == fe' -> ma == ma' -> inc == inc' ->
  classify t fe ma inc = classify t' fe' ma' inc'.
Proof.
  intros Ht Hf Hm Hi. unfold classify.
  rewrite (Qgtb_compat fe fe' t t' Hf Ht), (Qgtb_compat ma ma' t t' Hm Ht),
    (Qgtb_compat inc inc' t t' Hi Ht).
  reflexivity.
Qed.

(** Rewrite with every hypothesis [x == x'] whose left side occurs in the
    goal, then close it by reflexivity. *)
Ltac qeq_close :=
  repeat match goal with
  | H : ?x == ?y |- context [?x] =>
      lazymatch y with x => fail | _ => rewrite H end
  end; reflexivity.

(** Walk two runs of the same checked computation side by side. *)
Ltac rel_run :=
  repeat match goal with
  | |- opt_rel _ (bind (divq _ _) _) (bind (divq _ _) _) =>
      eapply opt_rel_bind; [apply divq_rel; qeq_close |];
      let a := fresh "a" in let a' := fresh "a'" in let Ha := fresh "Ha" in
      intros a a' Ha
  | |- opt_rel _ (bind (limited _ _ _) _) (bind (limited _ _ _) _) =>
      eapply opt_rel_bind; [apply limited_rel; qeq_close |];
      let a := fresh "a" in let a' := fresh "a'" in let Ha := fresh "Ha" in
      intros a a' Ha
  | |- opt_rel _ (ret _) (ret _) => apply opt_rel_ret
  end.

Ltac split_params H :=
  destruct H as (Hh & HS & Hd & HV & HQ & HF & HP & HY).

Module DetA.
Import ModelA.

Ltac split_gen H :=
  let H1 := fresh "Hf" in let H2 := fresh "Hf" in let H3 := fresh "Hf" in
  let H4 := fresh "Hf" in let H5 := fresh "Hf" in let H6 := fresh "Hf" in
  destruct H as (H1 & H2 & H3 & H4 & H5 & H6).

Ltac split_al H :=
  let H1 := fresh "Hg" in let H2 := fresh "Hg" in let H3 := fresh "Hg" in
  destruct H as (H1 & H2 & H3).

Lemma eqv_refl_A (v : gen) : eqv v v.
Proof. unfold eqv; repeat split; reflexivity. Qed.

Lemma pollen_rel_A (p p' : params) (v v' : gen) :
  eqv_params p p' -> eqv v v' ->
  opt_rel (fun a b => eqv_al (fst a) (fst b) /\ snd a == snd b)
    (pollen p v) (pollen p' v').
Proof.
  intros Hp Hv.
  assert (Hr : eqv_al (pollen_raw p v) (pollen_raw p' v')).
  { split_params Hp. split_gen Hv.
    unfold eqv_al, pollen_raw, pollen_sum; simpl. repeat split; qeq_close. }
  unfold pollen.
  destruct (pollen_raw p v) as [a b c], (pollen_raw p' v') as [a' b' c'].
  unfold eqv_al in Hr; cbn [g_A g_a g_as] in Hr. split_al Hr.
  cbv zeta; cbn [g_A g_a g_as].
  rewrite (Qgtb_compat (a + b + c) (a' + b' + c') 0 0) by qeq_close.
  destruct (Qgtb (a' + b' + c') 0); rel_run; cbn beta; simpl;
    (split; [unfold eqv_al; simpl; repeat split; qeq_close | qeq_close]).
Qed.

Lemma eggs_rel_A (p p' : params) (v v' : gen) (tp tp' : Q) :
  eqv_params p p' -> eqv v v' -> tp == tp' ->
  opt_rel eqv_al (eggs p v tp) (eggs p' v' tp').
Proof.
  intros Hp Hv Ht. split_params Hp. split_gen Hv.
  unfold eggs. cbv zeta. rel_run.
  unfold eqv_al; simpl; repeat split; qeq_close.
Qed.

Lemma selfed_rel (p p' : params) (v v' : gen) :
  eqv_params p p' -> eqv v v' -> opt_rel eqv (selfed p v) (selfed p' v').
Proof.
  intros Hp Hv. split_params Hp. split_gen Hv.
  unfold selfed. rel_run.
  unfold eqv; simpl; repeat split; qeq_close.
Qed.

Lemma step_raw_rel_A (p p' : params) (v v' : gen) :
  eqv_params p p' -> eqv v v' -> opt_rel eqv (step_raw p v) (step_raw p' v').
Proof.
  intros Hp Hv. unfold step_raw.
  eapply opt_rel_bind; [apply (pollen_rel_A p p' v v' Hp Hv)|].
  intros [pp tp] [pp' tp'] [Hpp Htp]; cbn [fst snd] in *.
  eapply opt_rel_bind; [apply (eggs_rel_A p p' v v' tp tp' Hp Hv Htp)|].
  intros e e' He.
  eapply opt_rel_bind; [apply (selfed_rel p p' v v' Hp Hv)|].
  intros s s' Hs. apply opt_rel_ret.
  split_params Hp. split_al Hpp. split_al He. split_gen Hs.
  unfold eqv; simpl; repeat split; qeq_close.
Qed.

Lemma normalise_rel_A (x x' : gen) :
  eqv x x' -> opt_rel eqv (normalise x) (normalise x').
Proof.
  intros Hx.
  assert (Ht : total x == total x')
    by (pose proof Hx as Hx'; unfold total; split_gen Hx'; qeq_close).
  unfold normalise. cbv zeta.
  rewrite (Qgtb_compat (total x) (total x') 0 0 Ht (Qeq_refl 0)).
  destruct (Qgtb (total x') 0).
  - split_gen Hx. rel_run. unfold eqv; simpl; repeat split; qeq_close.
  - exact Hx.
Qed.

Lemma iterate_rel_A (p p' : params) (n : nat) (v v' : gen) :
  eqv_params p p' -> eqv v v' -> opt_rel eqv (iterate p n v) (iterate p' n v').
Proof.
  intros Hp. revert v v'. induction n as [|n IH]; intros v v' Hv.
  - exact Hv.
  - simpl. eapply opt_rel_bind; [|intros w w' Hw; apply IH; exact Hw].
    unfold step. eapply opt_rel_bind; [apply (step_raw_rel_A p p' v v' Hp Hv)|].
    intros x x' Hx. apply normalise_rel_A. exact Hx.
Qed.

Lemma result_compat_A (t t' : Q) (v v' : gen) :
  t == t' -> eqv v v' -> result t v = result t' v'.
Proof.
  intros Ht Hv. unfold result, female, male, inconstant.
  split_gen Hv. apply classify_compat; qeq_close.
Qed.

End DetA.

Module DetB.
Import ModelB.

Ltac split_gen H :=
  let H1 := fresh "Hf" in let H2 := fresh "Hf" in let H3 := fresh "Hf" in
  let H4 := fresh "Hf" in let H5 := fresh "Hf" in let H6 := fresh "Hf" in
  let H7 := fresh "Hf" in let H8 := fresh "Hf" in let H9 := fresh "Hf" in
  destruct H as (H1 & H2 & H3 & H4 & H5 & H6 & H7 & H8 & H9).

Ltac split_gam H :=
  let H1 := fresh "Hg" in let H2 := fresh "Hg" in let H3 := fresh "Hg" in
  let H4 := fresh "Hg" in
  destruct H as (H1 & H2 & H3 & H4).

Lemma eqv_refl_B (v : gen) : eqv v v.
Proof. unfold eqv; repeat split; reflexivity. Qed.

Lemma pollen_rel_B (p p' : params) (v v' : gen) :
  eqv_params p p' -> eqv v v' ->
  opt_rel (fun a b => eqv_gam (fst a) (fst b) /\ snd a == snd b)
    (pollen p v) (pollen p' v').
Proof.
  intros Hp Hv.
  assert (Hr : eqv_gam (pollen_raw p v) (pollen_raw p' v')).
  { split_params Hp. split_gen Hv.
    unfold eqv_gam, pollen_raw; simpl. repeat split; qeq_close. }
  unfold pollen.
  destruct (pollen_raw p v) as [a b c e], (pollen_raw p' v') as [a' b' c' e'].
  unfold eqv_gam in Hr; cbn [g_A_M g_A_m g_a_M g_a_m] in Hr. split_gam Hr.
  cbv zeta; cbn [g_A_M g_A_m g_a_M g_a_m].
  rewrite (Qgtb_compat (a + b + c + e) (a' + b' + c' + e') 0 0) by qeq_close.
  destruct (Qgtb (a' + b' + c' + e') 0); rel_run; cbn beta; simpl;
    (split; [unfold eqv_gam; simpl; repeat split; qeq_close | qeq_close]).
Qed.

Lemma eggs_rel_B (p p' : params) (v v' : gen) (tp tp' : Q) :
  eqv_params p p' -> eqv v v' -> tp == tp' ->
  opt_rel eqv_gam (eggs p v tp) (eggs p' v' tp').
Proof.
  intros Hp Hv Ht. split_params Hp. split_gen Hv.
  unfold eggs. cbv zeta. rel_run.
  unfold eqv_gam; simpl; repeat split; qeq_close.
Qed.

Lemma step_raw_rel_B (p p' : params) (v v' : gen) :
  eqv_params p p' -> eqv v v' -> opt_rel eqv (step_raw p v) (step_raw p' v').
Proof.
  intros Hp Hv. unfold step_raw.
  eapply opt_rel_bind; [apply (pollen_rel_B p p' v v' Hp Hv)|].
  intros [pp tp] [pp' tp'] [Hpp Htp]; cbn [fst snd] in *.
  eapply opt_rel_bind; [apply (eggs_rel_B p p' v v' tp tp' Hp Hv Htp)|].
  intros e e' He. apply opt_rel_ret.
  split_params Hp. split_gam Hpp. split_gam He. split_gen Hv.
  unfold eqv, selfed; simpl; repeat split; qeq_close.
Qed.

Lemma normalise_rel_B (x x' : gen) :
  eqv x x' -> opt_rel eqv (normalise x) (normalise x').
Proof.
  intros Hx.
  assert (Ht : total x == total x')
    by (pose proof Hx as Hx'; unfold total; split_gen Hx'; qeq_close).
  unfold normalise. cbv zeta.
  rewrite (Qgtb_compat (total x) (total x') 0 0 Ht (Qeq_refl 0)).
  destruct (Qgtb (total x') 0).
  - split_gen Hx. rel_run. unfold eqv; simpl; repeat split; qeq_close.
  - exact Hx.
Qed.

Lemma iterate_rel_B (p p' : params) (n : nat) (v v' : gen) :
  eqv_params p p' -> eqv v v' -> opt_rel eqv (iterate p n v) (iterate p' n v').
Proof.
  intros Hp. revert v v'. induction n as [|n IH]; intros v v' Hv.
  - exact Hv.
  - simpl. eapply opt_rel_bind; [|intros w w' Hw; apply IH; exact Hw].
    unfold step. eapply opt_rel_bind; [apply (step_raw_rel_B p p' v v' Hp Hv)|].
    intros x x' Hx. apply normalise_rel_B. exact Hx.
Qed.

Lemma result_compat_B (t t' : Q) (v v' : gen) :
  t == t' -> eqv v v' -> result t v = result t' v'.
Proof.
  intros Ht Hv. unfold result, female, male, inconstant.
  split_gen Hv. apply classify_compat; qeq_close.
Qed.

End DetB.

(** * Claims *)

(** ** Generation step *)

(** C1: for non-negative frequencies and h, S, d, V in [0,1] and
    Q, F, PSatF, ppY >= 0, one generation step of either model succeeds
    and yields non-negative frequencies that sum to 1, unless the total
    before normalisation is 0, in which case the vector is left as it is,
    with every entry 0. *)
Theorem generation_step_normalised :
  (forall (p : params) (v : ModelA.gen),
    ModelA.nonneg v -> 0 <= h p <= 1 -> 0 <= Sr p <= 1 -> 0 <= d p <= 1 ->
    0 <= V p <= 1 -> 0 <= Qp p -> 0 <= F p -> 0 <= PSatF p -> 0 <= ppY p ->
    exists x y, ModelA.step_raw p v = Some x /\ ModelA.step p v = Some y /\
      ModelA.nonneg y /\
      ((0 < ModelA.total x /\ ModelA.total y == 1) \/
       (ModelA.total x == 0 /\ y = x /\ ModelA.zero y))) /\
  (forall (p : params) (v : ModelB.gen),
    ModelB.nonneg v -> 0 <= h p <= 1 -> 0 <= Sr p <= 1 -> 0 <= d p <= 1 ->
    0 <= V p <= 1 -> 0 <= Qp p -> 0 <= F p -> 0 <= PSatF p ->
    exists x y, ModelB.step_raw p v = Some x /\ ModelB.step p v = Some y /\
      ModelB.nonneg y /\
      ((0 < ModelB.total x /\ ModelB.total y == 1) \/
       (ModelB.total x == 0 /\ y = x /\ ModelB.zero y))).
Proof.
  split.
  - intros p v Hv Hh HS Hd HV HQ HF HP HY.
    destruct (FactsA.step_raw_spec_A p v Hv Hh HS Hd ltac:(lra) HQ HF HY)
      as (x & Ex & Hx).
    destruct (FactsA.normalise_spec_A x Hx) as (y & Ey & Hy & Hs).
    exists x, y. split; [exact Ex|].
    unfold ModelA.step. rewrite Ex; cbn [bind].
    split; [exact Ey|]. split; assumption.
  - intros p v Hv Hh HS Hd HV HQ HF HP.
    destruct (FactsB.step_raw_spec_B p v Hv Hh HS Hd ltac:(lra) HQ HF)
      as (x & Ex & Hx).
    destruct (FactsB.normalise_spec_B x Hx) as (y & Ey & Hy & Hs).
    exists x, y. split; [exact Ex|].
    unfold ModelB.step. rewrite Ex; cbn [bind].
    split; [exact Ey|]. split; assumption.
Qed.

Lemma generation_step_normalised_witness :
  (exists x y,
     ModelA.step_raw (mkParams (1#2) (1#2) (1#4) (1#2) 1 1 (1#3) 1)
       (ModelA.init false) = Some x /\
     ModelA.step (mkParams (1#2) (1#2) (1#4) (1#2) 1 1 (1#3) 1)
       (ModelA.init false) = Some y /\
     ModelA.nonneg y /\
     ((0 < ModelA.total x /\ ModelA.total y == 1) \/
      (ModelA.total x == 0 /\ y = x /\ ModelA.zero y))) /\
  (exists x y,
     ModelB.step_raw (mkParams (1#2) (1#2) (1#4) (1#2) 1 1 (1#3) 1)
       (ModelB.init true) = Some x /\
     ModelB.step (mkParams (1#2) (1#2) (1#4) (1#2) 1 1 (1#3) 1)
       (ModelB.init true) = Some y /\
     ModelB.nonneg y /\
     ((0 < ModelB.total x /\ ModelB.total y == 1) \/
      (ModelB.total x == 0 /\ y = x /\ ModelB.zero y))).
Proof.
  split.
  - apply (proj1 generation_step_normalised);
      unfold ModelA.nonneg; simpl; repeat split; lra.
  - apply (proj2 generation_step_normalised);
      unfold ModelB.nonneg; simpl; repeat split; lra.
Defined.

(** ** Pollen pool *)

(** C2 (counterexample): a Model 1 population made only of Aa* inconstants,
    with h = 1 and Q = 0 (and ppY = 1), has an all-zero pollen pool although
    it is not entirely female. *)
Lemma pollen_pool_zero_not_female :
  ModelA.nonneg (ModelA.mkGen 0 0 1 0 0 0) /\
  (exists pp tp,
     ModelA.pollen (mkParams 1 0 0 1 0 1 0 1) (ModelA.mkGen 0 0 1 0 0 0) =
       Some (pp, tp) /\
     tp == 0 /\ ModelA.g_A pp + ModelA.g_a pp + ModelA.g_as pp == 0) /\
  ModelA.inconstant (ModelA.mkGen 0 0 1 0 0 0) == 1.
Proof.
  split; [unfold ModelA.nonneg; simpl; repeat split; lra|].
  split.
  - eexists _, _. split; [vm_compute; reflexivity|].
    split; vm_compute; reflexivity.
  - vm_compute; reflexivity.
Qed.

(** C2 (amended): for non-negative frequencies, h in [0,1], Q >= 0 and,
    in Model 1, ppY >= 0, the pollen pool is non-negative; it sums to 1
    when totalpollen (the pollen output weighted by h.Q for cosexes, 1-h
    for inconstants acting as males and, in Model 1, ppY for a and a*
    pollen) is positive, and is all zero when totalpollen is 0.  An entirely
    female population has totalpollen 0. *)
Theorem pollen_pool_normalised :
  (forall (p : params) (v : ModelA.gen),
    ModelA.nonneg v -> 0 <= h p <= 1 -> 0 <= Qp p -> 0 <= ppY p ->
    exists pp, ModelA.pollen p v = Some (pp, ModelA.totalpollen p v) /\
      ModelA.nonneg_al pp /\
      (0 < ModelA.totalpollen p v ->
         ModelA.g_A pp + ModelA.g_a pp + ModelA.g_as pp == 1) /\
      (ModelA.totalpollen p v <= 0 ->
         ModelA.totalpollen p v == 0 /\ ModelA.zero_al pp) /\
      (ModelA.f_Aa v == 0 -> ModelA.f_Aas v == 0 -> ModelA.f_aa v == 0 ->
       ModelA.f_aas v == 0 -> ModelA.f_asas v == 0 ->
         ModelA.totalpollen p v == 0)) /\
  (forall (p : params) (v : ModelB.gen),
    ModelB.nonneg v -> 0 <= h p <= 1 -> 0 <= Qp p ->
    exists pp, ModelB.pollen p v = Some (pp, ModelB.totalpollen p v) /\
      ModelB.nonneg_gam pp /\
      (0 < ModelB.totalpollen p v ->
         ModelB.g_A_M pp + ModelB.g_A_m pp + ModelB.g_a_M pp
         + ModelB.g_a_m pp == 1) /\
      (ModelB.totalpollen p v <= 0 ->
         ModelB.totalpollen p v == 0 /\ ModelB.zero_gam pp) /\
      (ModelB.f_Aa_MM v == 0 -> ModelB.f_Aa_Mm v == 0 -> ModelB.f_Aa_mm v == 0 ->
       ModelB.f_aa_MM v == 0 -> ModelB.f_aa_Mm v == 0 -> ModelB.f_aa_mm v == 0 ->
         ModelB.totalpollen p v == 0)).
Proof.
  split.
  - intros p v Hv Hh HQ HY.
    destruct (FactsA.pollen_spec_A p v Hv Hh HQ HY) as (pp & E & _ & Hpp & H1 & H0).
    exists pp. repeat (split; [assumption|]).
    intros Z2 Z3 Z4 Z5 Z6. unfold ModelA.totalpollen, ModelA.pollen_raw,
      ModelA.pollen_sum; simpl.
    rewrite Z2, Z3, Z4, Z5, Z6. ring.
  - intros p v Hv Hh HQ.
    destruct (FactsB.pollen_spec_B p v Hv Hh HQ) as (pp & E & _ & Hpp & H1 & H0).
    exists pp. repeat (split; [assumption|]).
    intros Z4 Z5 Z6 Z7 Z8 Z9. unfold ModelB.totalpollen, ModelB.pollen_raw; simpl.
    rewrite Z4, Z5, Z6, Z7, Z8, Z9. ring.
Qed.

Lemma pollen_pool_normalised_witness :
  (exists pp,
     ModelA.pollen (mkParams (1#2) 0 0 1 1 1 0 1) (ModelA.init false) =
       Some (pp, ModelA.totalpollen (mkParams (1#2) 0 0 1 1 1 0 1)
                   (ModelA.init false)) /\
     ModelA.nonneg_al pp /\
     (0 < ModelA.totalpollen (mkParams (1#2) 0 0 1 1 1 0 1) (ModelA.init false) ->
        ModelA.g_A pp + ModelA.g_a pp + ModelA.g_as pp == 1) /\
     (ModelA.totalpollen (mkParams (1#2) 0 0 1 1 1 0 1) (ModelA.init false) <= 0 ->
        ModelA.totalpollen (mkParams (1#2) 0 0 1 1 1 0 1) (ModelA.init false) == 0
        /\ ModelA.zero_al pp) /\
     (ModelA.f_Aa (ModelA.init false) == 0 -> ModelA.f_Aas (ModelA.init false) == 0 ->
      ModelA.f_aa (ModelA.init false) == 0 -> ModelA.f_aas (ModelA.init false) == 0 ->
      ModelA.f_asas (ModelA.init false) == 0 ->
        ModelA.totalpollen (mkParams (1#2) 0 0 1 1 1 0 1) (ModelA.init false) == 0)) /\
  (exists pp,
     ModelB.pollen (mkParams (1#2) 0 0 1 1 1 0 1) (ModelB.init false) =
       Some (pp, ModelB.totalpollen (mkParams (1#2) 0 0 1 1 1 0 1)
                   (ModelB.init false)) /\
     ModelB.nonneg_gam pp /\
     (0 < ModelB.totalpollen (mkParams (1#2) 0 0 1 1 1 0 1) (ModelB.init false) ->
        ModelB.g_A_M pp + ModelB.g_A_m pp + ModelB.g_a_M pp + ModelB.g_a_m pp == 1) /\
     (ModelB.totalpollen (mkParams (1#2) 0 0 1 1 1 0 1) (ModelB.init false) <= 0 ->
        ModelB.totalpollen (mkParams (1#2) 0 0 1 1 1 0 1) (ModelB.init false) == 0
        /\ ModelB.zero_gam pp) /\
     (ModelB.f_Aa_MM (ModelB.init false) == 0 -> ModelB.f_Aa_Mm (ModelB.init false) == 0 ->
      ModelB.f_Aa_mm (ModelB.init false) == 0 -> ModelB.f_aa_MM (ModelB.init false) == 0 ->
      ModelB.f_aa_Mm (ModelB.init false) == 0 -> ModelB.f_aa_mm (ModelB.init false) == 0 ->
        ModelB.totalpollen (mkParams (1#2) 0 0 1 1 1 0 1) (ModelB.init false) == 0)).
Proof.
  split.
  - apply (proj1 pollen_pool_normalised);
      unfold ModelA.nonneg; simpl; repeat split; lra.
  - apply (proj2 pollen_pool_normalised);
      unfold ModelB.nonneg; simpl; repeat split; lra.
Defined.

(** ** Classifier *)

Ltac case_gtb :=
  repeat match goal with
  | |- context [Qgtb ?x ?y] =>
      let E := fresh "E" in
      destruct (Qgtb x y) eqn:E;
      [apply Qgtb_true in E | apply Qgtb_false in E]
  end.

(** C3 (counterexample): with threshold 0, a population of females only is
    classified none.  Such a final vector is reached by Model 1 from the
    dioecy start after one generation with h = 0 and ppY = 0: only A pollen
    is viable and the inconstants lay no eggs. *)
Lemma classify_zero_threshold_female_only :
  classify 0 1 0 0 = NONE /\
  exists y, ModelA.simulate (mkParams 0 0 0 1 1 1 0 0) 1 false = Some y /\
    ModelA.female y == 1 /\ ModelA.male y == 0 /\ ModelA.inconstant y == 0 /\
    ModelA.result 0 y = NONE.
Proof.
  split; [vm_compute; reflexivity|].
  eexists. split; [vm_compute; reflexivity|].
  repeat split; vm_compute; reflexivity.
Qed.

(** C3 (amended): with threshold 0 and non-negative aggregates, the
    classifier returns none exactly when the inconstant aggregate is 0 and
    at most one of the female and male aggregates is positive. *)
Theorem classify_zero_threshold :
  forall female male inconstant : Q,
    0 <= female -> 0 <= male -> 0 <= inconstant ->
    (classify 0 female male inconstant = NONE <->
     inconstant == 0 /\ (female == 0 \/ male == 0)).
Proof.
  intros fe ma inc Hf Hm Hi. unfold classify. case_gtb; simpl;
    split; intro H; try discriminate.
  all: match goal with
       | |- NONE = NONE => reflexivity
       | H : _ /\ (_ \/ _) |- _ => destruct H as [H1 [H2 | H2]]; lra
       | |- _ /\ (_ \/ _) =>
           split; [lra | destruct (Qlt_le_dec 0 fe); [right | left]; lra]
       end.
Qed.

Lemma classify_zero_threshold_witness :
  classify 0 1 0 0 = NONE <-> 0 == 0 /\ (1 == 0 \/ 0 == 0).
Proof. apply classify_zero_threshold; lra. Defined.

(** C4: the classifier returns the first category of the priority order
    SSD, DIO, PGD, PAD, INC whose presence condition (strict [>]) holds,
    and none otherwise. *)
Theorem classify_priority :
  forall threshold female male inconstant : Q,
    classify threshold female male inconstant =
    classify_spec threshold female male inconstant.
Proof.
  intros t fe ma inc.
  unfold classify_spec, priority, first_match, rule, present, classify.
  repeat destruct (Qlt_le_dec _ _); case_gtb; simpl; try reflexivity; lra.
Qed.

(** ** Selfing *)

(** C5: the selfed offspring of a genotype add up to its frequency times
    S (1 - d) h F when it is a cosex-capable inconstant (and to 0 otherwise),
    in both models; the ppY-weighted self-cross coefficients of the Model 1
    Aa* heterozygote sum to 1 for every ppY >= 0. *)
Theorem selfing_mass :
  (forall (p : params) (g : ModelA.genotype) (x : Q),
     ~ 1 + ppY p == 0 ->
     exists s, ModelA.selfed p (ModelA.single g x) = Some s /\
       ModelA.total s ==
         (if ModelA.cosex g then x else 0) * Sr p * (1 - d p) * h p * F p) /\
  (forall (p : params) (g : ModelB.genotype) (x : Q),
     ModelB.total (ModelB.selfed p (ModelB.single g x)) ==
       (if ModelB.cosex g then x else 0) * Sr p * (1 - d p) * h p * F p) /\
  (forall y : Q, 0 <= y -> (1#2) / (1 + y) + (1#2) + (1#2) * y / (1 + y) == 1).
Proof.
  split; [|split].
  - intros p g x HY.
    destruct (FactsA.selfed_spec_A p (ModelA.single g x) HY)
      as (s & Es & _ & _ & Ht).
    exists s. split; [exact Es|]. rewrite Ht.
    destruct g; simpl; ring.
  - intros p g x.
    destruct (FactsB.selfed_spec_B p (ModelB.single g x)) as (_ & _ & Ht).
    rewrite Ht. destruct g; simpl; ring.
  - intros y Hy. field. intro Z. lra.
Qed.

Lemma selfing_mass_witness :
  (exists s, ModelA.selfed (mkParams (1#2) (1#2) (1#4) 1 1 1 0 (1#3))
               (ModelA.single ModelA.Aas (1#5)) = Some s /\
     ModelA.total s == (1#5) * (1#2) * (1 - (1#4)) * (1#2) * 1) /\
  (1#2) / (1 + (1#3)) + (1#2) + (1#2) * (1#3) / (1 + (1#3)) == 1.
Proof.
  split.
  - apply (proj1 selfing_mass (mkParams (1#2) (1#2) (1#4) 1 1 1 0 (1#3))
             ModelA.Aas (1#5)).
    simpl. intro Z. vm_compute in Z. discriminate.
  - apply (proj2 (proj2 selfing_mass)). lra.
Defined.

(** ** Division guards *)

(** A [limited] call with a non-negative pollen total either returns its
    contribution without dividing, or divides by a positive threshold. *)
Lemma limited_divides (tp thr x : Q) :
  0 <= tp ->
  (thr <= tp /\ limited tp thr x = Some x) \/
  (0 < thr /\ limited tp thr x = Some (x * tp / thr)).
Proof.
  intro Htp. unfold limited.
  destruct (Qle_bool thr tp) eqn:E.
  - left. split; [apply Qle_bool_iff; exact E | reflexivity].
  - right. apply Qle_bool_false in E. split; [lra|].
    apply divq_pos. lra.
Qed.

(** C6: for non-negative genotype frequencies, with h a probability in
    [0,1], the pollen output Q >= 0 and, in Model 1, the Y pollen viability
    ppY >= 0, every division of one generation step is by a strictly
    positive number, whatever S, d, V, F and PSatF are.  For each model:
    totalpollen is non-negative; the pollen pool divides its entries by
    totalpollen when totalpollen > 0 and is left unnormalised when it is 0;
    every pollen-limited receiver (the [limited] calls of the egg pool, which
    all receive this totalpollen) either takes its contribution undivided or
    divides by a threshold (PSatF or PSatC) that is > 0; in Model 1 the
    selfing coefficients divide by 1 + ppY > 0; the step succeeds.  The
    final normalisation divides by totalplants when it is > 0 and leaves the
    vector unchanged otherwise. *)
Theorem divisions_positive :
  (forall (p : params) (v : ModelA.gen),
     ModelA.nonneg v -> 0 <= h p <= 1 -> 0 <= Qp p -> 0 <= ppY p ->
     let r := ModelA.pollen_raw p v in
     let tp := ModelA.totalpollen p v in
     0 <= tp /\
     (0 < tp -> ModelA.pollen p v =
        Some (ModelA.mkAl (ModelA.g_A r / tp) (ModelA.g_a r / tp)
                (ModelA.g_as r / tp), tp)) /\
     (tp == 0 -> ModelA.pollen p v = Some (r, tp)) /\
     (forall thr x, (thr <= tp /\ limited tp thr x = Some x) \/
                    (0 < thr /\ limited tp thr x = Some (x * tp / thr))) /\
     0 < 1 + ppY p /\
     (exists y, ModelA.step p v = Some y)) /\
  (forall x : ModelA.gen, 0 < ModelA.total x ->
     ModelA.normalise x =
       Some (ModelA.mkGen (ModelA.f_AA x / ModelA.total x)
               (ModelA.f_Aa x / ModelA.total x) (ModelA.f_Aas x / ModelA.total x)
               (ModelA.f_aa x / ModelA.total x) (ModelA.f_aas x / ModelA.total x)
               (ModelA.f_asas x / ModelA.total x))) /\
  (forall x : ModelA.gen, ModelA.total x <= 0 -> ModelA.normalise x = Some x) /\
  (forall (p : params) (v : ModelB.gen),
     ModelB.nonneg v -> 0 <= h p <= 1 -> 0 <= Qp p ->
     let r := ModelB.pollen_raw p v in
     let tp := ModelB.totalpollen p v in
     0 <= tp /\
     (0 < tp -> ModelB.pollen p v =
        Some (ModelB.mkGam (ModelB.g_A_M r / tp) (ModelB.g_A_m r / tp)
                (ModelB.g_a_M r / tp) (ModelB.g_a_m r / tp), tp)) /\
     (tp == 0 -> ModelB.pollen p v = Some (r, tp)) /\
     (forall thr x, (thr <= tp /\ limited tp thr x = Some x) \/
                    (0 < thr /\ limited tp thr x = Some (x * tp / thr))) /\
     (exists y, ModelB.step p v = Some y)) /\
  (forall x : ModelB.gen, 0 < ModelB.total x ->
     ModelB.normalise x =
       Some (ModelB.mkGen (ModelB.f_AA_MM x / ModelB.total x)
               (ModelB.f_AA_Mm x / ModelB.total x) (ModelB.f_AA_mm x / ModelB.total x)
               (ModelB.f_Aa_MM x / ModelB.total x) (ModelB.f_Aa_Mm x / ModelB.total x)
               (ModelB.f_Aa_mm x / ModelB.total x) (ModelB.f_aa_MM x / ModelB.total x)
               (ModelB.f_aa_Mm x / ModelB.total x) (ModelB.f_aa_mm x / ModelB.total x))) /\
  (forall x : ModelB.gen, ModelB.total x <= 0 -> ModelB.normalise x = Some x).
Proof.
  split; [|split; [|split; [|split; [|split]]]].
  - intros p v Hv Hh HQ HY r tp.
    destruct (FactsA.pollen_spec_A p v Hv Hh HQ HY) as (pp & _ & Htp & _).
    split; [exact Htp|]. split; [|split; [|split; [|split]]].
    + intro Hpos. subst r tp. unfold ModelA.pollen, ModelA.totalpollen in *.
      destruct (ModelA.pollen_raw p v) as [a b c]; cbn [ModelA.g_A ModelA.g_a
        ModelA.g_as] in *.
      cbv zeta. assert (E : Qgtb (a + b + c) 0 = true) by (apply Qgtb_true; exact Hpos).
      rewrite E, !divq_pos by exact Hpos. reflexivity.
    + intro Hz. subst r tp. unfold ModelA.pollen, ModelA.totalpollen in *.
      destruct (ModelA.pollen_raw p v) as [a b c]; cbn [ModelA.g_A ModelA.g_a
        ModelA.g_as] in *.
      cbv zeta. assert (E : Qgtb (a + b + c) 0 = false)
        by (apply Qgtb_false; rewrite Hz; apply Qle_refl).
      rewrite E. reflexivity.
    + intros thr x. apply limited_divides. exact Htp.
    + lra.
    + destruct (FactsA.step_raw_some_A p v Hv Hh HQ HY) as (x & Ex).
      destruct (FactsA.normalise_some_A x) as (y & Ey).
      exists y. unfold ModelA.step. rewrite Ex. exact Ey.
  - intros x Hpos. unfold ModelA.normalise. cbv zeta.
    assert (E : Qgtb (ModelA.total x) 0 = true) by (apply Qgtb_true; exact Hpos).
    rewrite E, !divq_pos by exact Hpos. reflexivity.
  - intros x H. unfold ModelA.normalise.
    assert (E : Qgtb (ModelA.total x) 0 = false) by (apply Qgtb_false; exact H).
    now rewrite E.
  - intros p v Hv Hh HQ r tp.
    destruct (FactsB.pollen_spec_B p v Hv Hh HQ) as (pp & _ & Htp & _).
    split; [exact Htp|]. split; [|split; [|split]].
    + intro Hpos. subst r tp. unfold ModelB.pollen, ModelB.totalpollen in *.
      destruct (ModelB.pollen_raw p v) as [a b c e]; cbn [ModelB.g_A_M ModelB.g_A_m
        ModelB.g_a_M ModelB.g_a_m] in *.
      cbv zeta. assert (E : Qgtb (a + b + c + e) 0 = true)
        by (apply Qgtb_true; exact Hpos).
      rewrite E, !divq_pos by exact Hpos. reflexivity.
    + intro Hz. subst r tp. unfold ModelB.pollen, ModelB.totalpollen in *.
      destruct (ModelB.pollen_raw p v) as [a b c e]; cbn [ModelB.g_A_M ModelB.g_A_m
        ModelB.g_a_M ModelB.g_a_m] in *.
      cbv zeta. assert (E : Qgtb (a + b + c + e) 0 = false)
        by (apply Qgtb_false; rewrite Hz; apply Qle_refl).
      rewrite E. reflexivity.
    + intros thr x. apply limited_divides. exact Htp.
    + destruct (FactsB.step_raw_some_B p v Hv Hh HQ) as (x & Ex).
      destruct (FactsB.normalise_some_B x) as (y & Ey).
      exists y. unfold ModelB.step. rewrite Ex. exact Ey.
  - intros x Hpos. unfold ModelB.normalise. cbv zeta.
    assert (E : Qgtb (ModelB.total x) 0 = true) by (apply Qgtb_true; exact Hpos).
    rewrite E, !divq_pos by exact Hpos. reflexivity.
  - intros x H. unfold ModelB.normalise.
    assert (E : Qgtb (ModelB.total x) 0 = false) by (apply Qgtb_false; exact H).
    now rewrite E.
Qed.

Lemma divisions_positive_witness :
  0 <= ModelA.totalpollen (mkParams (1#2) (1#2) (1#4) (1#2) (1#3) (1#2) 3 1)
         (ModelA.init true) /\
  (exists y, ModelA.step (mkParams (1#2) (1#2) (1#4) (1#2) (1#3) (1#2) 3 1)
               (ModelA.init true) = Some y) /\
  ModelA.normalise (ModelA.mkGen 1 1 0 0 0 2) =
    Some (ModelA.mkGen (1/4) (1/4) (0/4) (0/4) (0/4) (2/4)) /\
  ModelA.normalise ModelA.zero_gen = Some ModelA.zero_gen /\
  0 <= ModelB.totalpollen (mkParams (1#2) (1#2) (1#4) (1#2) (1#3) (1#2) 3 1)
         (ModelB.init false) /\
  (exists y, ModelB.step (mkParams (1#2) (1#2) (1#4) (1#2) (1#3) (1#2) 3 1)
               (ModelB.init false) = Some y) /\
  ModelB.normalise ModelB.zero_gen = Some ModelB.zero_gen.
Proof.
  destruct divisions_positive as (HA & HA2 & HA3 & HB & _ & HB3).
  assert (HvA : ModelA.nonneg (ModelA.init true))
    by (unfold ModelA.nonneg; simpl; repeat split; lra).
  assert (HvB : ModelB.nonneg (ModelB.init false))
    by (unfold ModelB.nonneg; simpl; repeat split; lra).
  destruct (HA (mkParams (1#2) (1#2) (1#4) (1#2) (1#3) (1#2) 3 1)
              (ModelA.init true) HvA ltac:(simpl; lra) ltac:(simpl; lra)
              ltac:(simpl; lra)) as (HtA & _ & _ & _ & _ & HsA).
  destruct (HB (mkParams (1#2) (1#2) (1#4) (1#2) (1#3) (1#2) 3 1)
              (ModelB.init false) HvB ltac:(simpl; lra) ltac:(simpl; lra))
    as (HtB & _ & _ & _ & HsB).
  split; [exact HtA|]. split; [exact HsA|].
  split; [apply (HA2 (ModelA.mkGen 1 1 0 0 0 2)); vm_compute; reflexivity|].
  split; [apply HA3; vm_compute; discriminate|].
  split; [exact HtB|]. split; [exact HsB|].
  apply HB3; vm_compute; discriminate.
Defined.

(** ** Extinction *)

(** C9 (counterexample): in Model 1 with ppY = -1 the selfing coefficients
    divide by [1 + ppY = 0], so the generation of the all-zero vector
    divides by zero. *)
Lemma extinction_ppY_minus_one :
  ModelA.step (mkParams (1#2) 0 0 1 1 1 0 (-1)) ModelA.zero_gen = None.
Proof. vm_compute. reflexivity. Qed.

Lemma iterate_zero_A (p : params) (n : nat) (v : ModelA.gen) :
  ~ 1 + ppY p == 0 -> ModelA.zero v ->
  exists y, ModelA.iterate p n v = Some y /\ ModelA.zero y.
Proof.
  intros HY. revert v. induction n as [|n IH]; intros v Hv.
  - exists v. split; [reflexivity | exact Hv].
  - destruct (FactsA.step_raw_zero_A p v Hv HY) as (x & Ex & Hx).
    simpl. unfold ModelA.step. rewrite Ex; cbn [bind].
    rewrite (FactsA.normalise_zero_A x Hx); cbn [bind].
    apply IH. exact Hx.
Qed.

Lemma iterate_zero_B (p : params) (n : nat) (v : ModelB.gen) :
  ModelB.zero v -> exists y, ModelB.iterate p n v = Some y /\ ModelB.zero y.
Proof.
  revert v. induction n as [|n IH]; intros v Hv.
  - exists v. split; [reflexivity | exact Hv].
  - destruct (FactsB.step_raw_zero_B p v Hv) as (x & Ex & Hx).
    simpl. unfold ModelB.step. rewrite Ex; cbn [bind].
    rewrite (FactsB.normalise_zero_B x Hx); cbn [bind].
    apply IH. exact Hx.
Qed.

(** C9 (amended): the all-zero vector is a fixed point of the generation
    step, reached again after any number of generations without a division
    by zero: in Model 2 for every parameter setting, in Model 1 for every
    setting with ppY <> -1 (in particular for all ppY >= 0). *)
Theorem extinction_absorbing :
  (forall (p : params) (n : nat), ~ ppY p == -1 ->
     (exists y, ModelA.step p ModelA.zero_gen = Some y /\ ModelA.zero y) /\
     (exists y, ModelA.iterate p n ModelA.zero_gen = Some y /\ ModelA.zero y)) /\
  (forall (p : params) (n : nat),
     (exists y, ModelB.step p ModelB.zero_gen = Some y /\ ModelB.zero y) /\
     (exists y, ModelB.iterate p n ModelB.zero_gen = Some y /\ ModelB.zero y)).
Proof.
  assert (ZA : ModelA.zero ModelA.zero_gen)
    by (unfold ModelA.zero; simpl; repeat split; reflexivity).
  assert (ZB : ModelB.zero ModelB.zero_gen)
    by (unfold ModelB.zero; simpl; repeat split; reflexivity).
  split.
  - intros p n HY. assert (HY' : ~ 1 + ppY p == 0) by (intro Z; apply HY; lra).
    split; [|exact (iterate_zero_A p n _ HY' ZA)].
    destruct (FactsA.step_raw_zero_A p _ ZA HY') as (x & Ex & Hx).
    exists x. unfold ModelA.step. rewrite Ex; cbn [bind].
    split; [apply FactsA.normalise_zero_A|]; exact Hx.
  - intros p n. split; [|exact (iterate_zero_B p n _ ZB)].
    destruct (FactsB.step_raw_zero_B p _ ZB) as (x & Ex & Hx).
    exists x. unfold ModelB.step. rewrite Ex; cbn [bind].
    split; [apply FactsB.normalise_zero_B|]; exact Hx.
Qed.

Lemma extinction_absorbing_witness :
  (exists y, ModelA.step (mkParams (1#2) (1#2) 0 1 1 1 (1#2) 1)
               ModelA.zero_gen = Some y /\ ModelA.zero y) /\
  (exists y, ModelA.iterate (mkParams (1#2) (1#2) 0 1 1 1 (1#2) 1) 3
               ModelA.zero_gen = Some y /\ ModelA.zero y).
Proof.
  apply (proj1 extinction_absorbing). vm_compute. discriminate.
Defined.

(** ** Aggregation *)

(** C10: female, male and inconstant partition the genotypes: their sum is
    the total frequency, in both models. *)
Theorem aggregates_partition :
  (forall v : ModelA.gen,
     ModelA.female v + ModelA.male v + ModelA.inconstant v == ModelA.total v) /\
  (forall v : ModelB.gen,
     ModelB.female v + ModelB.male v + ModelB.inconstant v == ModelB.total v).
Proof.
  split; intro v.
  - unfold ModelA.female, ModelA.male, ModelA.inconstant, ModelA.total. ring.
  - unfold ModelB.female, ModelB.male, ModelB.inconstant, ModelB.total. ring.
Qed.

(** ** Parameter sweep *)

(** C8: K = 1/Q - 1 recovers K from Q = 1/(1+K) for every K >= 0, and
    likewise k from F = 1/(1+k). *)
Theorem oldformat_roundtrip :
  forall K k : Q, 0 <= K -> 0 <= k ->
    K_of_Q (Q_of_K K) == K /\ K_of_Q (Q_of_K k) == k.
Proof.
  intros K k HK Hk. unfold K_of_Q, Q_of_K.
  split; field; intro Z; lra.
Qed.

Lemma oldformat_roundtrip_witness :
  K_of_Q (Q_of_K (3#2)) == 3#2 /\ K_of_Q (Q_of_K 4) == 4.
Proof. apply oldformat_roundtrip; lra. Defined.

(** ** Determinism *)

(** C7: the equilibrium simulation from the fixed initial condition is a
    function of the parameter values: two runs whose parameters (and
    thresholds) are equal as numbers, with the same iteration count and
    start, give equal final frequency vectors and the same category. *)
Theorem simulation_deterministic :
  (forall (p p' : params) (t t' : Q) (endpoint : nat) (pgd : bool),
     eqv_params p p' -> t == t' ->
     opt_rel ModelA.eqv (ModelA.simulate p endpoint pgd)
                        (ModelA.simulate p' endpoint pgd) /\
     option_map (ModelA.result t) (ModelA.simulate p endpoint pgd) =
     option_map (ModelA.result t') (ModelA.simulate p' endpoint pgd)) /\
  (forall (p p' : params) (t t' : Q) (endpoint : nat) (pgd : bool),
     eqv_params p p' -> t == t' ->
     opt_rel ModelB.eqv (ModelB.simulate p endpoint pgd)
                        (ModelB.simulate p' endpoint pgd) /\
     option_map (ModelB.result t) (ModelB.simulate p endpoint pgd) =
     option_map (ModelB.result t') (ModelB.simulate p' endpoint pgd)).
Proof.
  split.
  - intros p p' t t' n pgd Hp Ht.
    pose proof (DetA.iterate_rel_A p p' n _ _ Hp (DetA.eqv_refl_A (ModelA.init pgd)))
      as H.
    unfold ModelA.simulate. split; [exact H|].
    destruct (ModelA.iterate p n (ModelA.init pgd)),
      (ModelA.iterate p' n (ModelA.init pgd)); simpl in *; try contradiction.
    + f_equal. apply DetA.result_compat_A; assumption.
    + reflexivity.
  - intros p p' t t' n pgd Hp Ht.
    pose proof (DetB.iterate_rel_B p p' n _ _ Hp (DetB.eqv_refl_B (ModelB.init pgd)))
      as H.
    unfold ModelB.simulate. split; [exact H|].
    destruct (ModelB.iterate p n (ModelB.init pgd)),
      (ModelB.iterate p' n (ModelB.init pgd)); simpl in *; try contradiction.
    + f_equal. apply DetB.result_compat_B; assumption.
    + reflexivity.
Qed.

Lemma simulation_deterministic_witness :
  opt_rel ModelA.eqv (ModelA.simulate (mkParams (1#2) 0 0 1 1 1 0 1) 2 false)
                     (ModelA.simulate (mkParams (2#4) 0 0 (3#3) 1 1 0 (5#5)) 2 false) /\
  option_map (ModelA.result (1#100))
    (ModelA.simulate (mkParams (1#2) 0 0 1 1 1 0 1) 2 false) =
  option_map (ModelA.result (2#200))
    (ModelA.simulate (mkParams (2#4) 0 0 (3#3) 1 1 0 (5#5)) 2 false).
Proof.
  apply (proj1 simulation_deterministic).
  - unfold eqv_params; simpl; repeat split; vm_compute; reflexivity.
  - vm_compute; reflexivity.
Defined.

(** ** Lineages of the generation step *)

Lemma bind_Some_eq {A B} (a : A) (k : A -> M B) : bind (Some a) k = k a.
Proof. reflexivity. Qed.

Lemma bind_None_eq {A B} (k : A -> M B) : bind None k = None.
Proof. reflexivity. Qed.

(** Consume the [let*] bindings of a hypothesis [H : bind m k = Some _],
    naming each intermediate result. *)
Ltac peel H :=
  repeat match type of H with
  | bind (Some _) _ = Some _ => rewrite bind_Some_eq in H; cbv beta in H
  | bind ?m _ = Some _ =>
      let r := fresh "r" in let E := fresh "E" in
      destruct m as [r|] eqn:E;
      [rewrite bind_Some_eq in H; cbv beta in H
      |rewrite bind_None_eq in H; discriminate H]
  end.

Lemma divq_some (a b r : Q) : divq a b = Some r -> r == a / b.
Proof.
  unfold divq. destruct (Qeq_bool b 0); intros H; [discriminate|].
  injection H as <-. reflexivity.
Qed.

Lemma divq_some_zero (a b r : Q) : divq a b = Some r -> a == 0 -> r == 0.
Proof.
  intros H Ha. rewrite (divq_some a b r H), Ha. unfold Qdiv. ring.
Qed.

Lemma limited_some_zero (tp thr x r : Q) :
  limited tp thr x = Some r -> x == 0 -> r == 0.
Proof.
  unfold limited. destruct (Qle_bool thr tp); intros H Hx.
  - injection H as <-. exact Hx.
  - apply (divq_some_zero _ _ _ H). rewrite Hx. ring.
Qed.

Lemma limited_saturated (tp thr x : Q) : thr <= tp -> limited tp thr x = Some x.
Proof.
  intro H. unfold limited. apply Qle_bool_iff in H. rewrite H. reflexivity.
Qed.

Lemma Qdiv_comm_inv (a b : Q) : a / b == / b * a.
Proof. unfold Qdiv. apply Qmult_comm. Qed.

Lemma step_inv_A (p : params) (v y : ModelA.gen) :
  ModelA.step p v = Some y ->
  exists x, ModelA.step_raw p v = Some x /\ ModelA.normalise x = Some y.
Proof.
  unfold ModelA.step. intro H. peel H. exists r. split; [reflexivity|exact H].
Qed.

Lemma step_inv_B (p : params) (v y : ModelB.gen) :
  ModelB.step p v = Some y ->
  exists x, ModelB.step_raw p v = Some x /\ ModelB.normalise x = Some y.
Proof.
  unfold ModelB.step. intro H. peel H. exists r. split; [reflexivity|exact H].
Qed.

Lemma step_raw_inv_A (p : params) (v x : ModelA.gen) :
  ModelA.step_raw p v = Some x ->
  exists pp tp e s, ModelA.pollen p v = Some (pp, tp) /\
    ModelA.eggs p v tp = Some e /\ ModelA.selfed p v = Some s /\
    x = ModelA.penalty p (ModelA.add (ModelA.outcross pp e) s).
Proof.
  unfold ModelA.step_raw. intro H. peel H.
  destruct r as [pp tp]. cbn [fst snd] in *.
  injection H as <-. exists pp, tp, r0, r1. repeat split; assumption.
Qed.

Lemma step_raw_inv_B (p : params) (v x : ModelB.gen) :
  ModelB.step_raw p v = Some x ->
  exists pp tp e, ModelB.pollen p v = Some (pp, tp) /\
    ModelB.eggs p v tp = Some e /\
    x = ModelB.penalty p (ModelB.add (ModelB.outcross pp e) (ModelB.selfed p v)).
Proof.
  unfold ModelB.step_raw. intro H. peel H.
  destruct r as [pp tp]. cbn [fst snd] in *.
  injection H as <-. exists pp, tp, r0. repeat split; assumption.
Qed.

Lemma normalise_scale_A (x y : ModelA.gen) :
  ModelA.normalise x = Some y ->
  exists c, ModelA.f_AA y == c * ModelA.f_AA x /\ ModelA.f_Aa y == c * ModelA.f_Aa x /\
    ModelA.f_Aas y == c * ModelA.f_Aas x /\ ModelA.f_aa y == c * ModelA.f_aa x /\
    ModelA.f_aas y == c * ModelA.f_aas x /\ ModelA.f_asas y == c * ModelA.f_asas x.
Proof.
  unfold ModelA.normalise. cbv zeta. intros H.
  destruct (Qgtb (ModelA.total x) 0) eqn:E.
  - apply Qgtb_true in E. rewrite !divq_pos in H by exact E.
    cbn [bind ret] in H. injection H as <-.
    exists (/ ModelA.total x). cbn [ModelA.f_AA ModelA.f_Aa ModelA.f_Aas
      ModelA.f_aa ModelA.f_aas ModelA.f_asas].
    repeat split; apply Qdiv_comm_inv.
  - injection H as <-. exists 1. repeat split; ring.
Qed.

Lemma normalise_scale_B (x y : ModelB.gen) :
  ModelB.normalise x = Some y ->
  exists c,
    ModelB.f_AA_MM y == c * ModelB.f_AA_MM x /\ ModelB.f_AA_Mm y == c * ModelB.f_AA_Mm x /\
    ModelB.f_AA_mm y == c * ModelB.f_AA_mm x /\ ModelB.f_Aa_MM y == c * ModelB.f_Aa_MM x /\
    ModelB.f_Aa_Mm y == c * ModelB.f_Aa_Mm x /\ ModelB.f_Aa_mm y == c * ModelB.f_Aa_mm x /\
    ModelB.f_aa_MM y == c * ModelB.f_aa_MM x /\ ModelB.f_aa_Mm y == c * ModelB.f_aa_Mm x /\
    ModelB.f_aa_mm y == c * ModelB.f_aa_mm x.
Proof.
  unfold ModelB.normalise. cbv zeta. intros H.
  destruct (Qgtb (ModelB.total x) 0) eqn:E.
  - apply Qgtb_true in E. rewrite !divq_pos in H by exact E.
    cbn [bind ret] in H. injection H as <-.
    exists (/ ModelB.total x). cbn [ModelB.f_AA_MM ModelB.f_AA_Mm ModelB.f_AA_mm
      ModelB.f_Aa_MM ModelB.f_Aa_Mm ModelB.f_Aa_mm ModelB.f_aa_MM ModelB.f_aa_Mm
      ModelB.f_aa_mm].
    repeat split; apply Qdiv_comm_inv.
  - injection H as <-. exists 1. repeat split; ring.
Qed.

Lemma pollen_scale_A (p : params) (v : ModelA.gen) (pp : ModelA.alleles) (tp : Q) :
  ModelA.pollen p v = Some (pp, tp) ->
  exists c, ModelA.g_A pp == c * ModelA.g_A (ModelA.pollen_raw p v) /\
    ModelA.g_a pp == c * ModelA.g_a (ModelA.pollen_raw p v) /\
    ModelA.g_as pp == c * ModelA.g_as (ModelA.pollen_raw p v).
Proof.
  unfold ModelA.pollen. cbv zeta.
  destruct (ModelA.pollen_raw p v) as [a b c]. cbn [ModelA.g_A ModelA.g_a ModelA.g_as].
  intro H. destruct (Qgtb (a + b + c) 0) eqn:E.
  - apply Qgtb_true in E. rewrite !divq_pos in H by exact E.
    cbn [bind ret] in H. injection H as <- _.
    exists (/ (a + b + c)). cbn [ModelA.g_A ModelA.g_a ModelA.g_as].
    repeat split; apply Qdiv_comm_inv.
  - injection H as <- _. exists 1. cbn [ModelA.g_A ModelA.g_a ModelA.g_as].
    repeat split; ring.
Qed.

Lemma pollen_scale_B (p : params) (v : ModelB.gen) (pp : ModelB.gametes) (tp : Q) :
  ModelB.pollen p v = Some (pp, tp) ->
  exists c, ModelB.g_A_M pp == c * ModelB.g_A_M (ModelB.pollen_raw p v) /\
    ModelB.g_A_m pp == c * ModelB.g_A_m (ModelB.pollen_raw p v) /\
    ModelB.g_a_M pp == c * ModelB.g_a_M (ModelB.pollen_raw p v) /\
    ModelB.g_a_m pp == c * ModelB.g_a_m (ModelB.pollen_raw p v).
Proof.
  unfold ModelB.pollen. cbv zeta.
  destruct (ModelB.pollen_raw p v) as [a b c e].
  cbn [ModelB.g_A_M ModelB.g_A_m ModelB.g_a_M ModelB.g_a_m].
  intro H. destruct (Qgtb (a + b + c + e) 0) eqn:E.
  - apply Qgtb_true in E. rewrite !divq_pos in H by exact E.
    cbn [bind ret] in H. injection H as <- _.
    exists (/ (a + b + c + e)).
    cbn [ModelB.g_A_M ModelB.g_A_m ModelB.g_a_M ModelB.g_a_m].
    repeat split; apply Qdiv_comm_inv.
  - injection H as <- _. exists 1.
    cbn [ModelB.g_A_M ModelB.g_A_m ModelB.g_a_M ModelB.g_a_m].
    repeat split; ring.
Qed.

(** Clear the zero facts: every hypothesis [E : divq a b = Some r] or
    [E : limited t thr a = Some r] whose numerator vanishes becomes
    [r == 0]. *)
Ltac zero_out :=
  repeat match goal with
  | E : limited ?t ?th ?a = Some ?r |- _ =>
      first [ let Z := fresh "Z" in
              assert (Z : r == 0)
                by (apply (limited_some_zero t th a r E);
                    repeat match goal with
                           | Hz : ?f == 0 |- context [?f] => rewrite Hz
                           end; ring);
              clear E
            | clear E ]
  end.

(** Close [e == 0] goals by rewriting with the available [r == 0] facts. *)
Ltac zsolve :=
  repeat match goal with
  | Z : ?r == 0 |- context [?r] => progress rewrite Z
  end; ring.

Lemma eggs_inconstant_zero_A (p : params) (v : ModelA.gen) (tp : Q) (e : ModelA.alleles) :
  ModelA.f_Aas v == 0 -> ModelA.f_aas v == 0 -> ModelA.f_asas v == 0 ->
  ModelA.eggs p v tp = Some e -> ModelA.g_a e == 0 /\ ModelA.g_as e == 0.
Proof.
  intros H3 H5 H6 H. unfold ModelA.eggs in H. cbv zeta in H. peel H.
  injection H as <-. cbn [ModelA.g_a ModelA.g_as]. zero_out.
  split; zsolve.
Qed.

Lemma selfed_inconstant_zero_A (p : params) (v s : ModelA.gen) :
  ModelA.f_Aas v == 0 -> ModelA.f_aas v == 0 -> ModelA.f_asas v == 0 ->
  ModelA.selfed p v = Some s ->
  ModelA.f_Aas s == 0 /\ ModelA.f_aas s == 0 /\ ModelA.f_asas s == 0.
Proof.
  intros H3 H5 H6 H. unfold ModelA.selfed in H. peel H.
  injection H as <-. cbn [ModelA.f_Aas ModelA.f_aas ModelA.f_asas].
  repeat split; zsolve.
Qed.

Lemma step_inconstant_zero_A (p : params) (v y : ModelA.gen) :
  ModelA.f_Aas v == 0 -> ModelA.f_aas v == 0 -> ModelA.f_asas v == 0 ->
  ModelA.step p v = Some y ->
  ModelA.f_Aas y == 0 /\ ModelA.f_aas y == 0 /\ ModelA.f_asas y == 0.
Proof.
  intros H3 H5 H6 H.
  destruct (step_inv_A p v y H) as (x & Ex & Ey).
  destruct (step_raw_inv_A p v x Ex) as (pp & tp & e & s & Ep & Ee & Es & ->).
  destruct (pollen_scale_A p v pp tp Ep) as (c & _ & _ & Hp).
  assert (Hr : ModelA.g_as (ModelA.pollen_raw p v) == 0).
  { unfold ModelA.pollen_raw, ModelA.pollen_sum. cbn [ModelA.g_as].
    rewrite H3, H5, H6. ring. }
  rewrite Hr in Hp.
  destruct (eggs_inconstant_zero_A p v tp e H3 H5 H6 Ee) as (_ & He).
  destruct (selfed_inconstant_zero_A p v s H3 H5 H6 Es) as (Hs3 & Hs5 & Hs6).
  destruct (normalise_scale_A _ _ Ey) as (k & _ & _ & Y3 & _ & Y5 & Y6).
  rewrite Y3, Y5, Y6.
  cbn [ModelA.penalty ModelA.add ModelA.outcross ModelA.f_Aas ModelA.f_aas
    ModelA.f_asas].
  rewrite Hp, He, Hs3, Hs5, Hs6. repeat split; ring.
Qed.

Lemma eggs_modifier_zero_B (p : params) (v : ModelB.gen) (tp : Q) (e : ModelB.gametes) :
  ModelB.f_AA_MM v == 0 -> ModelB.f_AA_Mm v == 0 -> ModelB.f_Aa_MM v == 0 ->
  ModelB.f_Aa_Mm v == 0 -> ModelB.f_aa_MM v == 0 -> ModelB.f_aa_Mm v == 0 ->
  ModelB.eggs p v tp = Some e -> ModelB.g_A_M e == 0 /\ ModelB.g_a_M e == 0.
Proof.
  intros H1 H2 H4 H5 H7 H8 H. unfold ModelB.eggs in H. cbv zeta in H. peel H.
  injection H as <-. cbn [ModelB.g_A_M ModelB.g_a_M]. zero_out.
  split; zsolve.
Qed.

Lemma step_modifier_zero_B (p : params) (v y : ModelB.gen) :
  ModelB.f_AA_MM v == 0 -> ModelB.f_AA_Mm v == 0 -> ModelB.f_Aa_MM v == 0 ->
  ModelB.f_Aa_Mm v == 0 -> ModelB.f_aa_MM v == 0 -> ModelB.f_aa_Mm v == 0 ->
  ModelB.step p v = Some y ->
  ModelB.f_AA_MM y == 0 /\ ModelB.f_AA_Mm y == 0 /\ ModelB.f_Aa_MM y == 0 /\
  ModelB.f_Aa_Mm y == 0 /\ ModelB.f_aa_MM y == 0 /\ ModelB.f_aa_Mm y == 0.
Proof.
  intros H1 H2 H4 H5 H7 H8 H.
  destruct (step_inv_B p v y H) as (x & Ex & Ey).
  destruct (step_raw_inv_B p v x Ex) as (pp & tp & e & Ep & Ee & ->).
  destruct (pollen_scale_B p v pp tp Ep) as (c & P1 & _ & P3 & _).
  assert (R1 : ModelB.g_A_M (ModelB.pollen_raw p v) == 0).
  { unfold ModelB.pollen_raw. cbn [ModelB.g_A_M].
    rewrite H4, H5. ring. }
  assert (R3 : ModelB.g_a_M (ModelB.pollen_raw p v) == 0).
  { unfold ModelB.pollen_raw. cbn [ModelB.g_a_M].
    rewrite H4, H5, H7, H8. ring. }
  rewrite R1 in P1. rewrite R3 in P3.
  destruct (eggs_modifier_zero_B p v tp e H1 H2 H4 H5 H7 H8 Ee) as (E1 & E3).
  destruct (normalise_scale_B _ _ Ey) as (k & Y1 & Y2 & _ & Y4 & Y5 & _ & Y7 & Y8 & _).
  rewrite Y1, Y2, Y4, Y5, Y7, Y8.
  cbn [ModelB.penalty ModelB.add ModelB.outcross ModelB.selfed ModelB.f_AA_MM
    ModelB.f_AA_Mm ModelB.f_Aa_MM ModelB.f_Aa_Mm ModelB.f_aa_MM ModelB.f_aa_Mm].
  rewrite P1, P3, E1, E3, H4, H5, H7, H8. repeat split; ring.
Qed.

Lemma iterate_inv_A (p : params) (n : nat) (v w : ModelA.gen) :
  ModelA.iterate p (S n) v = Some w ->
  exists y, ModelA.step p v = Some y /\ ModelA.iterate p n y = Some w.
Proof.
  cbn [ModelA.iterate]. intro H. peel H. exists r. split; [reflexivity|exact H].
Qed.

Lemma iterate_inv_B (p : params) (n : nat) (v w : ModelB.gen) :
  ModelB.iterate p (S n) v = Some w ->
  exists y, ModelB.step p v = Some y /\ ModelB.iterate p n y = Some w.
Proof.
  cbn [ModelB.iterate]. intro H. peel H. exists r. split; [reflexivity|exact H].
Qed.

(** X1: inconstant males never arise de novo.  In Model 1, a start with
    no a* allele (f_Aas = f_aas = f_asas = 0) keeps these three
    frequencies, and the inconstant aggregate, at 0 after any number of
    generations; in Model 2 the same holds for the six genotypes carrying
    the modifier allele M (AA MM, AA Mm, Aa MM, Aa Mm, aa MM, aa Mm). *)
Theorem no_inconstant_de_novo :
  (forall (p : params) (n : nat) (v w : ModelA.gen),
     ModelA.f_Aas v == 0 -> ModelA.f_aas v == 0 -> ModelA.f_asas v == 0 ->
     ModelA.iterate p n v = Some w ->
     ModelA.f_Aas w == 0 /\ ModelA.f_aas w == 0 /\ ModelA.f_asas w == 0 /\
     ModelA.inconstant w == 0) /\
  (forall (p : params) (n : nat) (v w : ModelB.gen),
     ModelB.f_AA_MM v == 0 -> ModelB.f_AA_Mm v == 0 -> ModelB.f_Aa_MM v == 0 ->
     ModelB.f_Aa_Mm v == 0 -> ModelB.f_aa_MM v == 0 -> ModelB.f_aa_Mm v == 0 ->
     ModelB.iterate p n v = Some w ->
     ModelB.f_AA_MM w == 0 /\ ModelB.f_AA_Mm w == 0 /\ ModelB.f_Aa_MM w == 0 /\
     ModelB.f_Aa_Mm w == 0 /\ ModelB.f_aa_MM w == 0 /\ ModelB.f_aa_Mm w == 0 /\
     ModelB.inconstant w == 0).
Proof.
  split.
  - intros p n. induction n as [|n IH]; intros v w H3 H5 H6 H.
    + injection H as <-. unfold ModelA.inconstant.
      rewrite H3, H5, H6. repeat split; ring.
    + destruct (iterate_inv_A p n v w H) as (y & Ey & Hw).
      destruct (step_inconstant_zero_A p v y H3 H5 H6 Ey) as (Y3 & Y5 & Y6).
      exact (IH y w Y3 Y5 Y6 Hw).
  - intros p n. induction n as [|n IH]; intros v w H1 H2 H4 H5 H7 H8 H.
    + injection H as <-. unfold ModelB.inconstant.
      rewrite H4, H5, H7, H8. repeat split; try assumption; ring.
    + destruct (iterate_inv_B p n v w H) as (y & Ey & Hw).
      destruct (step_modifier_zero_B p v y H1 H2 H4 H5 H7 H8 Ey)
        as (Y1 & Y2 & Y4 & Y5 & Y7 & Y8).
      exact (IH y w Y1 Y2 Y4 Y5 Y7 Y8 Hw).
Qed.

Lemma no_inconstant_de_novo_witness :
  match ModelA.iterate (mkParams (1#2) (1#2) (1#4) (1#2) 1 1 (1#3) 1) 1
          (ModelA.mkGen (1#2) (1#2) 0 0 0 0) with
  | Some w => ModelA.inconstant w == 0 | None => False end /\
  match ModelB.iterate (mkParams (1#2) (1#2) (1#4) (1#2) 1 1 (1#3) 1) 1
          (ModelB.mkGen 0 0 (1#2) 0 0 (1#2) 0 0 0) with
  | Some w => ModelB.inconstant w == 0 | None => False end.
Proof.
  split.
  - destruct (ModelA.iterate (mkParams (1#2) (1#2) (1#4) (1#2) 1 1 (1#3) 1) 1
                (ModelA.mkGen (1#2) (1#2) 0 0 0 0)) as [w|] eqn:E;
      [|vm_compute in E; discriminate E].
    refine (proj2 (proj2 (proj2
      (proj1 no_inconstant_de_novo _ _ _ w _ _ _ E)))); reflexivity.
  - destruct (ModelB.iterate (mkParams (1#2) (1#2) (1#4) (1#2) 1 1 (1#3) 1) 1
                (ModelB.mkGen 0 0 (1#2) 0 0 (1#2) 0 0 0)) as [w|] eqn:E;
      [|vm_compute in E; discriminate E].
    refine (proj2 (proj2 (proj2 (proj2 (proj2 (proj2
      (proj2 no_inconstant_de_novo _ _ _ w _ _ _ _ _ _ E)))))));
      reflexivity.
Defined.

(** X2: with V = 0 ("--ancient", YY fully inviable) the YY penalty
    [next_f_aa *= V; ...] leaves no YY plant after one generation: the aa,
    aa* and a*a* frequencies of Model 1, and the aa MM, aa Mm and aa mm
    frequencies of Model 2, are 0 after every successful step. *)
Theorem ancient_dioecy_no_YY :
  (forall (p : params) (v y : ModelA.gen),
     V p == 0 -> ModelA.step p v = Some y ->
     ModelA.f_aa y == 0 /\ ModelA.f_aas y == 0 /\ ModelA.f_asas y == 0) /\
  (forall (p : params) (v y : ModelB.gen),
     V p == 0 -> ModelB.step p v = Some y ->
     ModelB.f_aa_MM y == 0 /\ ModelB.f_aa_Mm y == 0 /\ ModelB.f_aa_mm y == 0).
Proof.
  split.
  - intros p v y HV H.
    destruct (step_inv_A p v y H) as (x & Ex & Ey).
    destruct (step_raw_inv_A p v x Ex) as (pp & tp & e & s & _ & _ & _ & ->).
    destruct (normalise_scale_A _ _ Ey) as (c & _ & _ & _ & Y4 & Y5 & Y6).
    rewrite Y4, Y5, Y6.
    cbn [ModelA.penalty ModelA.f_aa ModelA.f_aas ModelA.f_asas].
    rewrite HV. repeat split; ring.
  - intros p v y HV H.
    destruct (step_inv_B p v y H) as (x & Ex & Ey).
    destruct (step_raw_inv_B p v x Ex) as (pp & tp & e & _ & _ & ->).
    destruct (normalise_scale_B _ _ Ey) as (c & _ & _ & _ & _ & _ & _ & Y7 & Y8 & Y9).
    rewrite Y7, Y8, Y9.
    cbn [ModelB.penalty ModelB.f_aa_MM ModelB.f_aa_Mm ModelB.f_aa_mm].
    rewrite HV. repeat split; ring.
Qed.

Lemma ancient_dioecy_no_YY_witness :
  match ModelA.step (mkParams (1#2) (1#4) 0 0 1 1 0 1)
          (ModelA.mkGen (1#4) (1#4) (1#8) (1#8) (1#8) (1#8)) with
  | Some y => ModelA.f_aa y == 0 | None => False end /\
  match ModelB.step (mkParams (1#2) (1#4) 0 0 1 1 0 1)
          (ModelB.mkGen (1#9) (1#9) (1#9) (1#9) (1#9) (1#9) (1#9) (1#9) (1#9)) with
  | Some y => ModelB.f_aa_mm y == 0 | None => False end.
Proof.
  split.
  - destruct (ModelA.step (mkParams (1#2) (1#4) 0 0 1 1 0 1)
                (ModelA.mkGen (1#4) (1#4) (1#8) (1#8) (1#8) (1#8))) as [y|] eqn:E;
      [|vm_compute in E; discriminate E].
    refine (proj1 (proj1 ancient_dioecy_no_YY _ _ y _ E)); reflexivity.
  - destruct (ModelB.step (mkParams (1#2) (1#4) 0 0 1 1 0 1)
                (ModelB.mkGen (1#9) (1#9) (1#9) (1#9) (1#9) (1#9) (1#9) (1#9) (1#9)))
      as [y|] eqn:E; [|vm_compute in E; discriminate E].
    refine (proj2 (proj2 (proj2 ancient_dioecy_no_YY _ _ y _ E))); reflexivity.
Defined.

(** X3: with the default PSatF = 0 there is no pollen limitation: every
    [totalpollen >= PSatF] test succeeds, so the egg pool does not depend
    on the amount of pollen (any two non-negative totals give the same
    eggs), in both models. *)
Theorem no_pollen_limitation :
  (forall (p : params) (v : ModelA.gen) (tp tp' : Q),
     PSatF p == 0 -> 0 <= tp -> 0 <= tp' ->
     ModelA.eggs p v tp = ModelA.eggs p v tp') /\
  (forall (p : params) (v : ModelB.gen) (tp tp' : Q),
     PSatF p == 0 -> 0 <= tp -> 0 <= tp' ->
     ModelB.eggs p v tp = ModelB.eggs p v tp').
Proof.
  split; intros p v tp tp' H0 Ht Ht'.
  - unfold ModelA.eggs. cbv zeta.
    rewrite !(limited_saturated tp) by (rewrite H0; lra).
    rewrite !(limited_saturated tp') by (rewrite H0; lra).
    reflexivity.
  - unfold ModelB.eggs. cbv zeta.
    rewrite !(limited_saturated tp) by (rewrite H0; lra).
    rewrite !(limited_saturated tp') by (rewrite H0; lra).
    reflexivity.
Qed.

Lemma no_pollen_limitation_witness :
  ModelA.eggs (mkParams (1#2) (1#4) 0 1 1 1 0 1)
    (ModelA.mkGen (1#4) (1#4) (1#8) (1#8) (1#8) (1#8)) (1#100)
  = ModelA.eggs (mkParams (1#2) (1#4) 0 1 1 1 0 1)
    (ModelA.mkGen (1#4) (1#4) (1#8) (1#8) (1#8) (1#8)) 7 /\
  ModelB.eggs (mkParams (1#2) (1#4) 0 1 1 1 0 1)
    (ModelB.mkGen (1#9) (1#9) (1#9) (1#9) (1#9) (1#9) (1#9) (1#9) (1#9)) 0
  = ModelB.eggs (mkParams (1#2) (1#4) 0 1 1 1 0 1)
    (ModelB.mkGen (1#9) (1#9) (1#9) (1#9) (1#9) (1#9) (1#9) (1#9) (1#9)) 3.
Proof.
  split.
  - apply (proj1 no_pollen_limitation); [vm_compute; reflexivity | lra | lra].
  - apply (proj2 no_pollen_limitation); [vm_compute; reflexivity | lra | lra].
Defined.

(** ** The sweep over the (Q, F) grid *)

Lemma injZ_pos (z : Z) : (0 < z)%Z -> 0 < inject_Z z.
Proof. intro H. unfold Qlt. simpl. lia. Qed.

Lemma injZ_nonneg (z : Z) : (0 <= z)%Z -> 0 <= inject_Z z.
Proof. intro H. unfold Qle. simpl. lia. Qed.

Lemma grid_ratio (s x : Z) :
  (2 <= s)%Z -> (0 <= x <= s - 1)%Z ->
  divq (inject_Z x) (inject_Z (s - 1)) = Some (inject_Z x / inject_Z (s - 1)) /\
  0 <= inject_Z x / inject_Z (s - 1) <= 1 /\
  (x = 0%Z -> inject_Z x / inject_Z (s - 1) == 0) /\
  (x = (s - 1)%Z -> inject_Z x / inject_Z (s - 1) == 1).
Proof.
  intros Hs Hx.
  assert (Hd : 0 < inject_Z (s - 1)) by (apply injZ_pos; lia).
  assert (Hn : 0 <= inject_Z x) by (apply injZ_nonneg; lia).
  assert (Hle : inject_Z x <= inject_Z (s - 1)) by (rewrite <- Zle_Qle; lia).
  split; [apply divq_pos; exact Hd|].
  split; [split|split].
  - apply Qle_shift_div_l; [exact Hd|]. lra.
  - apply Qle_shift_div_r; [exact Hd|]. lra.
  - intros ->. reflexivity.
  - intros ->. field. intro Z. rewrite Z in Hd. lra.
Qed.

(** X4: in the default format, grid cell (x, y) of a sweep with
    subdivisions >= 2 runs with Q = x / (subdivisions - 1) and
    F = y / (subdivisions - 1), without division by zero; both lie in
    [0, 1], with 0 at the first cell and 1 at the last one. *)
Theorem grid_linear (s l x y : Z) :
  (2 <= s)%Z -> (0 <= x <= s - 1)%Z -> (0 <= y <= s - 1)%Z ->
  exists q f, grid_QF false s l x y = Some (q, f) /\
    q == inject_Z x / inject_Z (s - 1) /\ f == inject_Z y / inject_Z (s - 1) /\
    0 <= q <= 1 /\ 0 <= f <= 1 /\
    (x = 0%Z -> q == 0) /\ (x = (s - 1)%Z -> q == 1) /\
    (y = 0%Z -> f == 0) /\ (y = (s - 1)%Z -> f == 1).
Proof.
  intros Hs Hx Hy.
  destruct (grid_ratio s x Hs Hx) as (Ex & Rx & X0 & X1).
  destruct (grid_ratio s y Hs Hy) as (Ey & Ry & Y0 & Y1).
  unfold grid_QF. cbn [negb]. rewrite Ex, Ey. cbn [bind ret].
  eexists; eexists; split; [reflexivity|].
  repeat split; try reflexivity; try apply Rx; try apply Ry; auto.
Qed.

Lemma grid_linear_witness :
  exists q f, grid_QF false 5 4 2 4 = Some (q, f) /\ q == 1#2 /\ f == 1.
Proof.
  destruct (grid_linear 5 4 2 4 ltac:(lia) ltac:(lia) ltac:(lia))
    as (q & f & E & Hq & Hf & _).
  exists q, f. split; [exact E|].
  split; [rewrite Hq | rewrite Hf]; vm_compute; reflexivity.
Defined.

(** X5: in the old format (--oldformat) with subdivisions >= 2 and
    oldformatlimit >= 0, grid cell (x, y) runs with Q = 1 / (1 + K) and
    F = 1 / (1 + k), where K = x / (subdivisions - 1) * oldformatlimit and
    k likewise from y; both lie in (0, 1], the K and k recovered from them
    by 1/Q - 1 are these axis values, and Q runs from 1 at the first cell
    to 1 / (1 + oldformatlimit) at the last one (the same for F). *)
Theorem grid_oldformat (s l x y : Z) :
  (2 <= s)%Z -> (0 <= l)%Z -> (0 <= x <= s - 1)%Z -> (0 <= y <= s - 1)%Z ->
  exists q f, grid_QF true s l x y = Some (q, f) /\
    0 < q <= 1 /\ 0 < f <= 1 /\
    K_of_Q q == inject_Z x / inject_Z (s - 1) * inject_Z l /\
    K_of_Q f == inject_Z y / inject_Z (s - 1) * inject_Z l /\
    (x = 0%Z -> q == 1) /\ (x = (s - 1)%Z -> q == 1 / (1 + inject_Z l)) /\
    (y = 0%Z -> f == 1) /\ (y = (s - 1)%Z -> f == 1 / (1 + inject_Z l)).
Proof.
  intros Hs Hl Hx Hy.
  destruct (grid_ratio s x Hs Hx) as (Ex & Rx & X0 & X1).
  destruct (grid_ratio s y Hs Hy) as (Ey & Ry & Y0 & Y1).
  assert (HL : 0 <= inject_Z l) by (apply injZ_nonneg; exact Hl).
  set (kx := inject_Z x / inject_Z (s - 1)) in *.
  set (ky := inject_Z y / inject_Z (s - 1)) in *.
  assert (HK : 0 <= kx * inject_Z l) by (apply Qmult_le_0_compat; lra).
  assert (Hk : 0 <= ky * inject_Z l) by (apply Qmult_le_0_compat; lra).
  unfold grid_QF. cbn [negb]. rewrite Ex, Ey. cbn [bind].
  rewrite (divq_pos 1 (1 + kx * inject_Z l)) by lra.
  rewrite (divq_pos 1 (1 + ky * inject_Z l)) by lra.
  cbn [bind ret].
  eexists; eexists; split; [reflexivity|].
  assert (B : forall K, 0 <= K -> 0 < 1 / (1 + K) <= 1 /\ K_of_Q (1 / (1 + K)) == K).
  { intros K HK0. split; [split|].
    - apply Qlt_shift_div_l; lra.
    - apply Qle_shift_div_r; lra.
    - unfold K_of_Q. field. intro Z. lra. }
  destruct (B _ HK) as (BK1 & BK2). destruct (B _ Hk) as (Bk1 & Bk2).
  split; [exact BK1|]. split; [exact Bk1|]. split; [exact BK2|]. split; [exact Bk2|].
  repeat split.
  - intro E. rewrite (X0 E). field.
  - intro E. rewrite (X1 E). field. intro Z. lra.
  - intro E. rewrite (Y0 E). field.
  - intro E. rewrite (Y1 E). field. intro Z. lra.
Qed.

Lemma grid_oldformat_witness :
  exists q f, grid_QF true 5 4 4 0 = Some (q, f) /\ q == 1#5 /\ f == 1.
Proof.
  destruct (grid_oldformat 5 4 4 0 ltac:(lia) ltac:(lia) ltac:(lia) ltac:(lia))
    as (q & f & E & _ & _ & _ & _ & _ & Hq & Hf & _).
  exists q, f. split; [exact E|].
  split; [rewrite (Hq eq_refl) | rewrite (Hf eq_refl)]; vm_compute; reflexivity.
Defined.

(** X6: a sweep with subdivisions = 1 divides by subdivisions - 1 = 0 when
    it maps a cell to its (Q, F) point, in both formats. *)
Theorem grid_single_subdivision (oldformat : bool) (l x y : Z) :
  grid_QF oldformat 1 l x y = None.
Proof. destruct oldformat; reflexivity. Qed.

(** ** The bitmap written by [drawbmp] *)

Import Bmp.

Section BmpProofs.
Local Open Scope Z_scope.

Lemma extrabytes_range (s m : Z) :
  0 <= s -> 0 <= m ->
  0 <= extrabytes s m <= 3 /\ (s * m * 3 + extrabytes s m) mod 4 = 0.
Proof.
  intros Hs Hm. unfold extrabytes.
  assert (0 <= s * m * 3) by (apply Z.mul_nonneg_nonneg; [apply Z.mul_nonneg_nonneg|]; lia).
  rewrite Z.rem_mod_nonneg by lia.
  pose proof (Z.mod_pos_bound (s * m * 3) 4 ltac:(lia)).
  destruct (Z.eqb_spec (4 - (s * m * 3) mod 4) 4) as [E|E].
  - split; [lia|]. rewrite Z.add_0_r. lia.
  - split; [lia|].
    Z.div_mod_to_equations. lia.
Qed.

Lemma put_uint_value (x : Z) : le_value (put_uint x) = x mod 2 ^ 32.
Proof.
  unfold put_uint, le_value, putc. cbn [fold_right app].
  change 0x000000FF with (Z.ones 8).
  change 0x0000FF00 with (Z.shiftl (Z.ones 8) 8).
  change 0x00FF0000 with (Z.shiftl (Z.ones 8) 16).
  change 0xFF000000 with (Z.shiftl (Z.ones 8) 24).
  change 256 with (2 ^ 8).
  rewrite !Z.shiftr_land, !Z.shiftr_shiftl_l by lia.
  rewrite !Z.sub_diag, !Z.shiftl_0_r.
  rewrite !Z.land_ones by lia.
  rewrite !Z.shiftr_div_pow2 by lia.
  rewrite !Zmod_mod.
  change (2 ^ 32) with (2 ^ 8 * (2 ^ 8 * (2 ^ 8 * 2 ^ 8))).
  rewrite Z.rem_mul_r by lia.
  rewrite Z.rem_mul_r by lia.
  rewrite Z.rem_mul_r by lia.
  rewrite !Z.div_div by lia.
  change (2 ^ 16) with (2 ^ 8 * 2 ^ 8).
  change (2 ^ 24) with (2 ^ 8 * 2 ^ 8 * 2 ^ 8).
  ring.
Qed.

Lemma length_flat_map_const {A B} (f : A -> list B) (c : nat) (l : list A) :
  (forall a, In a l -> length (f a) = c) ->
  length (flat_map f l) = (length l * c)%nat.
Proof.
  induction l as [|a l IH]; intros H; [reflexivity|].
  cbn [flat_map length]. rewrite length_app, (H a (or_introl eq_refl)), IH
    by (intros b Hb; apply H; right; exact Hb).
  lia.
Qed.

Lemma window_app_r {A} (l1 l2 : list A) (r n : nat) :
  firstn n (skipn (length l1 + r) (l1 ++ l2)) = firstn n (skipn r l2).
Proof.
  rewrite skipn_app, skipn_all2 by lia.
  replace (length l1 + r - length l1)%nat with r by lia. reflexivity.
Qed.

Lemma window_app_l {A} (l1 l2 : list A) (r n : nat) :
  (r + n <= length l1)%nat ->
  firstn n (skipn r (l1 ++ l2)) = firstn n (skipn r l1).
Proof.
  intros H. rewrite skipn_app, firstn_app, length_skipn.
  replace (n - (length l1 - r))%nat with 0%nat by lia.
  rewrite firstn_O, app_nil_r. reflexivity.
Qed.

Lemma window_flat_map {A B} (f : A -> list B) (c : nat) (l : list A)
    (k : nat) (a : A) (r n : nat) :
  (forall b, In b l -> length (f b) = c) -> nth_error l k = Some a ->
  (r + n <= c)%nat ->
  firstn n (skipn (k * c + r) (flat_map f l)) = firstn n (skipn r (f a)).
Proof.
  revert k. induction l as [|b l IH]; intros k Hl Hk Hr;
    [destruct k; discriminate|].
  destruct k as [|k]; cbn [flat_map].
  - injection Hk as <-. simpl (0 * c + r)%nat. apply window_app_l.
    rewrite (Hl b (or_introl eq_refl)). lia.
  - replace (S k * c + r)%nat with (length (f b) + (k * c + r))%nat
      by (rewrite (Hl b (or_introl eq_refl)); lia).
    rewrite window_app_r. apply IH; auto.
    intros b' Hb'. apply Hl. right. exact Hb'.
Qed.

Lemma nth_error_seq0 (n k : nat) : (k < n)%nat -> nth_error (seq 0 n) k = Some k.
Proof.
  intros H. rewrite nth_error_nth' with (d := 0%nat) by (rewrite length_seq; lia).
  rewrite seq_nth by lia. reflexivity.
Qed.

Lemma colour_range (r : Z) :
  let '(red, green, blue) := colour r in
  0 <= red < 256 /\ 0 <= green < 256 /\ 0 <= blue < 256.
Proof.
  unfold colour.
  destruct (r =? code PGD), (r =? code DIO), (r =? code SSD), (r =? code PAD),
    (r =? code INC); lia.
Qed.

Lemma pixel_bytes_length (m r : Z) :
  length (pixel_bytes m r) = (Z.to_nat m * 3)%nat.
Proof.
  unfold pixel_bytes. destruct (colour r) as [[red green] blue].
  rewrite (length_flat_map_const _ 3) by reflexivity.
  rewrite length_seq. reflexivity.
Qed.

Lemma row_bytes_length (s m : Z) (result : Z -> Z -> Z) (y : Z) :
  0 <= s -> 0 <= m ->
  length (row_bytes s m result y) = row_length s m.
Proof.
  intros Hs Hm. destruct (extrabytes_range s m Hs Hm) as [He _].
  unfold row_bytes, row_length.
  rewrite length_app, (length_flat_map_const _ (Z.to_nat m * 3))
    by (intros; apply pixel_bytes_length).
  rewrite length_seq.
  assert (Hp : length (if extrabytes s m =? 0 then []
                       else flat_map (fun _ : nat => putc 0)
                              (seq 1 (Z.to_nat (extrabytes s m))))
               = Z.to_nat (extrabytes s m)).
  { destruct (Z.eqb_spec (extrabytes s m) 0) as [E|E].
    - rewrite E. reflexivity.
    - rewrite (length_flat_map_const _ 1) by reflexivity.
      rewrite length_seq. lia. }
  rewrite Hp.
  assert (0 <= s * m) by (apply Z.mul_nonneg_nonneg; lia).
  rewrite Z2Nat.inj_add, !Z2Nat.inj_mul by lia.
  change (Z.to_nat 3) with 3%nat. ring.
Qed.

Lemma header_length (s m : Z) : length (header_bytes s m) = 54%nat.
Proof. reflexivity. Qed.

Lemma block_length (s m : Z) (result : Z -> Z -> Z) (y : nat) :
  0 <= s -> 0 <= m ->
  length (flat_map (fun _ => row_bytes s m result (Z.of_nat y))
                   (seq 0 (Z.to_nat m)))
  = (Z.to_nat m * row_length s m)%nat.
Proof.
  intros Hs Hm.
  rewrite (length_flat_map_const _ (row_length s m))
    by (intros; apply row_bytes_length; assumption).
  rewrite length_seq. reflexivity.
Qed.

Lemma flat_map_putc_zero (l : list nat) :
  flat_map (fun _ => putc 0) l = repeat 0 (length l).
Proof. induction l as [|a l IH]; [reflexivity|]. cbn. rewrite IH. reflexivity. Qed.

(** X7: pixel (x, y) of the grid, magnified into the block of rows
    y * magnify + j and columns x * magnify + i (j, i < magnify), is stored
    as the three bytes blue, green, red of the colour of its category, at
    offset 54 + (y * magnify + j) * (row length) + (x * magnify + i) * 3 of
    the file, the row length being the padded one; this holds for all
    subdivisions, magnify >= 0 whose file size fits in a C int. *)
Theorem bitmap_pixel (s m : Z) (result : Z -> Z -> Z) (x y j i : nat) :
  0 <= s -> 0 <= m -> paddedsize s m + 54 < 2 ^ 31 ->
  (x < Z.to_nat s)%nat -> (y < Z.to_nat s)%nat ->
  (j < Z.to_nat m)%nat -> (i < Z.to_nat m)%nat ->
  firstn 3 (skipn (pixel_offset s m x y j i) (bitmap_bytes s m result)) =
  (let '(red, green, blue) := colour (result (Z.of_nat x) (Z.of_nat y)) in
   [blue; green; red]).
Proof.
  intros Hs Hm _ Hx Hy Hj Hi.
  set (m' := Z.to_nat m) in *. set (s' := Z.to_nat s) in *.
  set (R := row_length s m).
  assert (HR : (s' * (m' * 3) <= R)%nat).
  { unfold R, row_length, s', m'.
    destruct (extrabytes_range s m Hs Hm) as [He _].
    assert (0 <= s * m) by (apply Z.mul_nonneg_nonneg; lia).
    rewrite Z2Nat.inj_add, !Z2Nat.inj_mul by lia. lia. }
  unfold bitmap_bytes, pixel_offset. fold m' s'. fold R.
  replace (54 + (y * m' + j) * R + (x * m' + i) * 3)%nat
    with (length (header_bytes s m) + (y * (m' * R) + (j * R + (x * (m' * 3) + i * 3))))%nat
    by (rewrite header_length; ring).
  rewrite window_app_r.
  rewrite (window_flat_map _ (m' * R) _ y y)
    by (try (intros; apply block_length; assumption);
        try (apply nth_error_seq0; assumption); nia).
  rewrite (window_flat_map _ R _ j j)
    by (try (intros; apply row_bytes_length; assumption);
        try (apply nth_error_seq0; assumption); nia).
  unfold row_bytes. rewrite window_app_l
    by (rewrite (length_flat_map_const _ (m' * 3)) by (intros; apply pixel_bytes_length);
        rewrite length_seq; nia).
  rewrite (window_flat_map _ (m' * 3) _ x x)
    by (try (intros; apply pixel_bytes_length);
        try (apply nth_error_seq0; assumption); nia).
  unfold pixel_bytes.
  pose proof (colour_range (result (Z.of_nat x) (Z.of_nat y))) as Hc.
  destruct (colour (result (Z.of_nat x) (Z.of_nat y))) as [[red green] blue].
  rewrite <- (Nat.add_0_r (i * 3)).
  rewrite (window_flat_map _ 3 _ i i) by (try reflexivity;
        try (apply nth_error_seq0; assumption); lia).
  unfold putc. cbn.
  rewrite !Z.mod_small by lia. reflexivity.
Qed.

Lemma bitmap_pixel_witness :
  firstn 3 (skipn (pixel_offset 2 1 1 0 0 0) (bitmap_bytes 2 1 (fun _ _ => 3)))
  = [255; 0; 127].
Proof.
  refine (eq_trans (bitmap_pixel 2 1 (fun _ _ => 3) 1 0 0 0 _ _ _ _ _ _ _) _);
    first [lia | (cbn; lia) | (vm_compute; reflexivity)].
Defined.

Lemma header_field_lo (s m : Z) (rest : list Z) (off n : nat) :
  (n < 6)%nat -> off = (2 + n * 4)%nat ->
  firstn 4 (skipn off (header_bytes s m ++ rest))
  = put_uint (nth n (headers_0_5 s m) 0).
Proof.
  intros H ->. do 6 (destruct n as [|n]; [reflexivity|]). lia.
Qed.

Lemma header_field_hi (s m : Z) (rest : list Z) (off n : nat) :
  (n < 6)%nat -> off = (30 + n * 4)%nat ->
  firstn 4 (skipn off (header_bytes s m ++ rest))
  = put_uint (nth n (headers_7_12 s m) 0).
Proof.
  intros H ->. do 6 (destruct n as [|n]; [reflexivity|]). lia.
Qed.

Lemma paddedsize_ge (s m : Z) :
  0 <= s -> 0 <= m -> 0 <= s * m <= paddedsize s m.
Proof.
  intros Hs Hm. destruct (extrabytes_range s m Hs Hm) as [He _].
  unfold paddedsize.
  assert (0 <= s * m) by (apply Z.mul_nonneg_nonneg; lia).
  split; [lia|].
  replace ((s * m * 3 + extrabytes s m) * s * m)
    with ((s * m * 3 + extrabytes s m) * (s * m)) by ring.
  destruct (Z.eq_dec (s * m) 0) as [E|E]; [rewrite E; lia|]. nia.
Qed.

Lemma bitmap_length (s m : Z) (result : Z -> Z -> Z) :
  0 <= s -> 0 <= m ->
  Z.of_nat (length (bitmap_bytes s m result)) = paddedsize s m + 54.
Proof.
  intros Hs Hm. destruct (extrabytes_range s m Hs Hm) as [He _].
  unfold bitmap_bytes.
  rewrite length_app, header_length,
    (length_flat_map_const _ (Z.to_nat m * row_length s m))
    by (intros; apply block_length; assumption).
  rewrite length_seq. unfold row_length, paddedsize.
  assert (0 <= s * m) by (apply Z.mul_nonneg_nonneg; lia).
  rewrite Nat2Z.inj_add, !Nat2Z.inj_mul, !Z2Nat.id by lia. ring.
Qed.

(** X8: the header of the bitmap.  When the file size fits in a C int, the
    file is paddedsize + 54 bytes long and starts with "BM"; the
    little-endian 32-bit fields at offsets 2, 10, 14, 18, 22 and 34 hold
    the file size, the data offset 54, the header size 40, the width and
    the height subdivisions * magnify, and the image size paddedsize; the
    bytes 26..29 are biPlanes = 1 and biBitCount = 24. *)
Theorem bitmap_header (s m : Z) (result : Z -> Z -> Z) :
  0 <= s -> 0 <= m -> paddedsize s m + 54 < 2 ^ 31 ->
  Z.of_nat (length (bitmap_bytes s m result)) = paddedsize s m + 54 /\
  firstn 2 (bitmap_bytes s m result) = [66; 77] /\
  read_uint (bitmap_bytes s m result) 2
    = Z.of_nat (length (bitmap_bytes s m result)) /\
  read_uint (bitmap_bytes s m result) 10 = 54 /\
  read_uint (bitmap_bytes s m result) 14 = 40 /\
  read_uint (bitmap_bytes s m result) 18 = s * m /\
  read_uint (bitmap_bytes s m result) 22 = s * m /\
  firstn 4 (skipn 26 (bitmap_bytes s m result)) = [1; 0; 24; 0] /\
  read_uint (bitmap_bytes s m result) 34 = paddedsize s m.
Proof.
  intros Hs Hm Hb.
  pose proof (paddedsize_ge s m Hs Hm) as Hp.
  pose proof (bitmap_length s m result Hs Hm) as Hl.
  unfold read_uint, bitmap_bytes in *.
  split; [exact Hl|]. split; [reflexivity|].
  rewrite Hl.
  set (rest := flat_map _ (seq 0 (Z.to_nat s))).
  rewrite (header_field_lo s m rest 2 0), (header_field_lo s m rest 10 2),
    (header_field_lo s m rest 14 3), (header_field_lo s m rest 18 4),
    (header_field_lo s m rest 22 5), (header_field_hi s m rest 34 1)
    by (reflexivity || lia).
  cbn [nth headers_0_5 headers_7_12 map].
  rewrite !put_uint_value. unfold uint. rewrite !Zmod_mod.
  rewrite !Z.mod_small by lia.
  repeat split; reflexivity.
Qed.

Lemma bitmap_header_witness :
  Z.of_nat (length (bitmap_bytes 2 1 (fun _ _ => 0))) = 70 /\
  read_uint (bitmap_bytes 2 1 (fun _ _ => 0)) 34 = 16.
Proof.
  destruct (bitmap_header 2 1 (fun _ _ => 0) ltac:(lia) ltac:(lia)
              ltac:(vm_compute; reflexivity))
    as (L & _ & _ & _ & _ & _ & _ & _ & P).
  rewrite L, P. split; vm_compute; reflexivity.
Defined.

(** X9: every row of the bitmap is padded to a multiple of 4 bytes:
    extrabytes is between 0 and 3, the row of subdivisions * magnify pixels
    is subdivisions * magnify * 3 + extrabytes bytes long, that length is
    divisible by 4, and the bytes after the pixels are extrabytes zeros. *)
Theorem bmp_row_padding (s m : Z) (result : Z -> Z -> Z) (y : Z) :
  0 <= s -> 0 <= m ->
  0 <= extrabytes s m <= 3 /\
  Z.of_nat (length (row_bytes s m result y)) = s * m * 3 + extrabytes s m /\
  (s * m * 3 + extrabytes s m) mod 4 = 0 /\
  skipn (Z.to_nat (s * m * 3)) (row_bytes s m result y)
  = repeat 0 (Z.to_nat (extrabytes s m)).
Proof.
  intros Hs Hm. destruct (extrabytes_range s m Hs Hm) as [He Hmod].
  assert (0 <= s * m) by (apply Z.mul_nonneg_nonneg; lia).
  split; [exact He|]. split.
  { rewrite row_bytes_length by assumption. unfold row_length.
    rewrite Z2Nat.id by lia. reflexivity. }
  split; [exact Hmod|].
  unfold row_bytes.
  assert (L : length (flat_map (fun x => pixel_bytes m (result (Z.of_nat x) y))
                               (seq 0 (Z.to_nat s)))
              = Z.to_nat (s * m * 3)).
  { rewrite (length_flat_map_const _ (Z.to_nat m * 3))
      by (intros; apply pixel_bytes_length).
    rewrite length_seq, !Z2Nat.inj_mul by lia.
    change (Z.to_nat 3) with 3%nat. lia. }
  rewrite <- L, skipn_app, skipn_all, Nat.sub_diag, skipn_O. cbn [app].
  destruct (Z.eqb_spec (extrabytes s m) 0) as [E|E].
  - rewrite E. reflexivity.
  - rewrite flat_map_putc_zero, length_seq. reflexivity.
Qed.

Lemma bmp_row_padding_witness :
  skipn 6 (row_bytes 2 1 (fun _ _ => 5) 0) = [0; 0].
Proof.
  destruct (bmp_row_padding 2 1 (fun _ _ => 5) 0 ltac:(lia) ltac:(lia))
    as (_ & _ & _ & P).
  exact P.
Defined.

(** X10: the colour legend of the bitmap: the six categories get six
    different colours, "none" is black, and a grid value that is the code
    of no category is drawn black as well. *)
Theorem colour_legend :
  (forall c c' : category, c <> c' -> colour (code c) <> colour (code c')) /\
  colour (code NONE) = (0, 0, 0) /\
  (forall r : Z, (forall c : category, r <> code c) -> colour r = (0, 0, 0)).
Proof.
  split; [|split].
  - intros c c' H. destruct c, c'; try (exfalso; apply H; reflexivity);
      cbv; intro E; discriminate E.
  - reflexivity.
  - intros r H. unfold colour.
    rewrite (proj2 (Z.eqb_neq r (code PGD)) (H PGD)),
      (proj2 (Z.eqb_neq r (code DIO)) (H DIO)),
      (proj2 (Z.eqb_neq r (code SSD)) (H SSD)),
      (proj2 (Z.eqb_neq r (code PAD)) (H PAD)),
      (proj2 (Z.eqb_neq r (code INC)) (H INC)).
    reflexivity.
Qed.

Lemma colour_legend_witness :
  colour (code PGD) <> colour (code SSD) /\ colour 7 = (0, 0, 0).
Proof.
  split.
  - apply (proj1 colour_legend). discriminate.
  - apply (proj2 (proj2 colour_legend)). intros c. destruct c; cbn; discriminate.
Defined.

End BmpProofs.

(** ** The command line *)

Import Cmdline.

Lemma is_one_of_in (a : String.string) (names : list String.string) :
  is_one_of a names = true -> In a names.
Proof.
  unfold is_one_of. intros H. apply existsb_exists in H.
  destruct H as (n & Hn & E). apply String.eqb_eq in E. subst. exact Hn.
Qed.

Lemma is_one_of_unrec (a : String.string) (names : list String.string) :
  unrecognised a = false -> forallb unrecognised names = true ->
  is_one_of a names = false.
Proof.
  intros Ha Hn. destruct (is_one_of a names) eqn:E; [|reflexivity].
  apply is_one_of_in in E. rewrite forallb_forall in Hn.
  rewrite (Hn a E) in Ha. discriminate.
Qed.

Lemma is_one_of_outside (a : String.string) (names all : list String.string) :
  ~ In a all -> forallb (fun n => is_one_of n all) names = true ->
  is_one_of a names = false.
Proof.
  intros Ha Hn. destruct (is_one_of a names) eqn:E; [|reflexivity].
  apply is_one_of_in in E. rewrite forallb_forall in Hn.
  pose proof (is_one_of_in _ _ (Hn a E)). contradiction.
Qed.

(** X11: an option that takes a value ([-H], [-S], [-D], [--PSatF], [-V],
    [--yypenalty], [-Q], [-F], [-K], [--pi], [-k], [--omega],
    [--threshold], [--subdivisions], [--oldformatlimit], [--endpoint],
    [--iterations], their aliases, and [--ppY] in deterministic_model1.c)
    followed by a value v sets its global from v and the scan goes on at v
    itself. *)
Theorem parse_value_option (atof : String.string -> Q) (atoi : String.string -> Z)
    (model1 : bool) (o v : String.string) (upd : String.string -> globals -> globals)
    (rest : list String.string) (g : globals) :
  In (o, upd) (value_options atof atoi model1) ->
  parse_args atof atoi model1 (o :: v :: rest) g
  = parse_args atof atoi model1 (v :: rest) (upd v g).
Proof.
  intros H. unfold value_options in H.
  destruct model1; simpl in H;
  repeat (destruct H as [H|H]; [injection H as <- <-; reflexivity|]);
  contradiction.
Qed.

Lemma parse_value_option_witness :
  parse_args (fun _ => 3#10) (fun _ => 5%Z) true ["-H"; "0.3"]%string defaults
  = parse_args (fun _ => 3#10) (fun _ => 5%Z) true ["0.3"]%string
      (set_h (3#10) defaults).
Proof.
  refine (parse_value_option (fun _ => 3#10) (fun _ => 5%Z) true "-H" "0.3"
            (fun v => set_h ((fun _ => 3#10) v)) [] defaults _).
  left. reflexivity.
Defined.

(** X12: a flag ([--ancient], [--ancientdioecy], [--recent],
    [--recentdioecy], [--onerun], [--pgd], [--oldformat], [--gnuplot])
    sets its global (V = 0, V = 1 or the switch) and the scan goes on with
    the next argument. *)
Theorem parse_flag (atof : String.string -> Q) (atoi : String.string -> Z)
    (model1 : bool) (o : String.string) (upd : globals -> globals)
    (rest : list String.string) (g : globals) :
  In (o, upd) flag_options ->
  parse_args atof atoi model1 (o :: rest) g
  = parse_args atof atoi model1 rest (upd g).
Proof.
  intros H. unfold flag_options in H.
  destruct model1; simpl in H;
  repeat (destruct H as [H|H]; [injection H as <- <-; reflexivity|]);
  contradiction.
Qed.

Lemma parse_flag_witness :
  parse_args (fun _ => 3#10) (fun _ => 5%Z) false ["--ancient"]%string defaults
  = parse_args (fun _ => 3#10) (fun _ => 5%Z) false [] (set_V 0 defaults).
Proof.
  refine (parse_flag (fun _ => 3#10) (fun _ => 5%Z) false "--ancient"
            (set_V 0) [] defaults _).
  left. reflexivity.
Defined.

(** X13: a value option given as the last argument is not applied: the
    bound test [n < argc - 1] fails, every other test fails too, and the
    argument, which starts with '-' and a non-digit, is rejected as
    unrecognised; [--pi] and [--omega], which have no bound test, read
    past the end of argv instead. *)
Theorem parse_missing_value (atof : String.string -> Q)
    (atoi : String.string -> Z) (model1 : bool) (o : String.string)
    (upd : String.string -> globals -> globals) (g : globals) :
  In (o, upd) (value_options atof atoi model1) ->
  parse_args atof atoi model1 [o] g
  = if is_one_of o ["--pi"; "--omega"]%string then NullArgv else Unrecognised o.
Proof.
  intros H. unfold value_options in H.
  destruct model1; simpl in H;
  repeat (destruct H as [H|H]; [injection H as <- <-; reflexivity|]);
  contradiction.
Qed.

Lemma parse_missing_value_witness :
  parse_args (fun _ => 3#10) (fun _ => 5%Z) true ["-H"]%string defaults
  = Unrecognised "-H"%string.
Proof.
  refine (eq_trans (parse_missing_value (fun _ => 3#10) (fun _ => 5%Z) true
            "-H" (fun v => set_h ((fun _ => 3#10) v)) defaults _) _);
    [left; reflexivity | reflexivity].
Defined.

(** X14: an argument that does not start with '-' followed by a non-digit
    (a value such as "0.3" or "-2", or an empty string) and that names no
    option is skipped. *)
Theorem parse_skip (atof : String.string -> Q) (atoi : String.string -> Z)
    (model1 : bool) (a : String.string) (rest : list String.string)
    (g : globals) :
  unrecognised a = false ->
  parse_args atof atoi model1 (a :: rest) g = parse_args atof atoi model1 rest g.
Proof.
  intros Ha. cbn [parse_args]. unfold parse_one, value_for.
  destruct model1;
  repeat rewrite (is_one_of_unrec a _ Ha) by reflexivity;
  rewrite Ha; reflexivity.
Qed.

Lemma parse_skip_witness :
  parse_args (fun _ => 3#10) (fun _ => 5%Z) true ["0.3"; "--pgd"]%string defaults
  = parse_args (fun _ => 3#10) (fun _ => 5%Z) true ["--pgd"]%string defaults.
Proof.
  apply parse_skip. reflexivity.
Defined.

(** X15: an argument that starts with '-' followed by a non-digit and is
    not one of the options ends the parse with "Unrecognised option". *)
Theorem parse_reject (atof : String.string -> Q) (atoi : String.string -> Z)
    (model1 : bool) (a : String.string) (rest : list String.string)
    (g : globals) :
  unrecognised a = true ->
  ~ In a (map fst (value_options atof atoi model1) ++ map fst flag_options) ->
  parse_args atof atoi model1 (a :: rest) g = Unrecognised a.
Proof.
  intros Ha Hn. cbn [parse_args]. unfold parse_one, value_for.
  destruct model1;
  repeat rewrite (is_one_of_outside a _ _ Hn) by reflexivity;
  rewrite Ha; reflexivity.
Qed.

Lemma parse_reject_witness :
  parse_args (fun _ => 3#10) (fun _ => 5%Z) true ["--foo"; "1"]%string defaults
  = Unrecognised "--foo"%string.
Proof.
  apply parse_reject; [reflexivity|].
  cbn. intuition discriminate.
Defined.

(** X16: deterministic_model2.c has no [--ppY] option: there it is
    rejected as unrecognised. *)
Theorem parse_ppY_model2 (atof : String.string -> Q) (atoi : String.string -> Z)
    (rest : list String.string) (g : globals) :
  parse_args atof atoi false ("--ppY" :: rest)%string g = Unrecognised "--ppY"%string.
Proof. reflexivity. Qed.
